(** * RingBuffer.h: a fixed-capacity ring buffer over a caller-supplied array

    Shallow embedding of [src/RingBuffer.h].  The header defines the class
    template [RingBuffer<T, value>] twice: the primary template (the
    reference form, [write] takes [T const *] and [read] returns [T *]) and
    the partial specialisation [RingBuffer<T, 1>] (the value form, [write]
    takes [T] and [read] returns [T]).  Both are embedded, each in a module
    of its own, over one state record.

    Conventions.
    - A [uint8_t] is a [Z]; the wrap-around of [++] and of [- 1] is written
      out with [to_u8].  [%], [&= ~y] and [|= y] map bytes to bytes, so they
      carry no wrap.
    - The caller's array is the list [addr]; a [T *] into it is the element
      offset from [arr].
    - An operation returns [None] where the C++ has no defined result: a
      store or a load outside the array, or [%] by zero.
    - [isFull] and [isEmpty] do not compile once called (they read
      [buff->flags] on a struct object); the state of a flag is the value of
      the test the protected operations make, [full_flag] and [empty_flag].
    - A local that the C++ reads before any assignment ([index] and [item]
      in [p_read]) is an extra argument: the value the local happens to
      hold.  The members the constructor does not assign keep what the
      object's storage held before. *)

From Stdlib Require Import ZArith Lia Bool.
From stdpp Require Import base option list.

Local Open Scope Z_scope.

(** ** Bytes, flags and the array *)

Definition to_u8 (z : Z) : Z := z mod 256.

(** [#define FLAG_FULL 0x01], [#define FLAG_EMPTY 0x02] *)
Definition FLAG_FULL : Z := 1.
Definition FLAG_EMPTY : Z := 2.

(** [#define CLEAR_BITMASK(x, y) (x &= (~y))] and its two siblings; the
    assignment is made by the caller of these functions. *)
Definition CLEAR_BITMASK (x y : Z) : Z := Z.land x (Z.lnot y).
Definition SET_BITMASK (x y : Z) : Z := Z.lor x y.
Definition CHECK_BITMASK (x y : Z) : Z := Z.land x y.

(** A C++ condition: any non-zero value is true. *)
Definition truthy (z : Z) : bool := negb (z =? 0).

(** A pointer into the caller's array, as an element offset. *)
Definition ptr : Type := Z.

(** [a[i] = v] *)
Definition store {T : Type} (a : list T) (i : Z) (v : T) : option (list T) :=
  if (0 <=? i) && (i <? Z.of_nat (length a))
  then Some (<[Z.to_nat i := v]> a)
  else None.

(** [a[i]] as an rvalue, and [*p] for a pointer [p] into the array *)
Definition load {T : Type} (a : list T) (i : Z) : option T :=
  if 0 <=? i then a !! Z.to_nat i else None.

(** [x % n] *)
Definition umod (x n : Z) : option Z :=
  if n =? 0 then None else Some (x mod n).

(** [struct ringBuff] together with the array [addr] points to *)
Record ringBuff (T : Type) : Type := mkRingBuff {
  addr : list T;
  arrLen : Z;
  readPos : Z;
  writePos : Z;
  flags : Z
}.
Arguments mkRingBuff {T} _ _ _ _ _.
Arguments addr {T} _.
Arguments arrLen {T} _.
Arguments readPos {T} _.
Arguments writePos {T} _.
Arguments flags {T} _.

(** The value of [CHECK_BITMASK(b->flags, FLAG_FULL)], which [p_write] tests
    first (lines 58, 198), and of [CHECK_BITMASK(b->flags, FLAG_EMPTY)], which
    [p_read] tests first (lines 106, 246): non-zero when the flag is set. *)
Definition full_flag {T : Type} (b : ringBuff T) : Z :=
  CHECK_BITMASK (flags b) FLAG_FULL.
Definition empty_flag {T : Type} (b : ringBuff T) : Z :=
  CHECK_BITMASK (flags b) FLAG_EMPTY.

(** ** The reference form, [RingBuffer<T, 0>] (lines 18-148) *)

Module RefForm.
Section Ops.
Context {T : Type}.

(** The constructor assigns [addr] and [arrLen] only. [mem] is the object's
    storage as it was before the constructor ran. *)
Definition RingBuffer (mem : ringBuff T) (arr : list T) (elements : Z)
  : ringBuff T :=
  mkRingBuff arr elements (readPos mem) (writePos mem) (flags mem).

(** [data] is the element [*data]. *)
Definition write (data : T) (b : ringBuff T) : option (ringBuff T * Z) :=
  a ← store (addr b) (writePos b) data;
  wp ← umod (to_u8 (writePos b + 1)) (arrLen b);
  Some (mkRingBuff a (arrLen b) (readPos b) wp (flags b), wp).

Definition p_write (data : T) (b : ringBuff T) : option (ringBuff T * Z) :=
  if truthy (CHECK_BITMASK (flags b) FLAG_FULL) then
    let ret := to_u8 (writePos b - 1) in
    let ret := if ret >? arrLen b then arrLen b else ret in
    Some (b, ret)
  else
    a ← store (addr b) (writePos b) data;
    ret ← umod (to_u8 (writePos b + 1)) (arrLen b);
    let fl := CLEAR_BITMASK (flags b) FLAG_EMPTY in
    let fl := if ret =? readPos b then SET_BITMASK fl FLAG_FULL else fl in
    Some (mkRingBuff a (arrLen b) (readPos b) ret fl, ret).

(** [&b->addr[b->readPos++]] computes an address and loads nothing. *)
Definition read (b : ringBuff T) : option (ringBuff T * ptr) :=
  let item := readPos b in
  rp ← umod (to_u8 (readPos b + 1)) (arrLen b);
  Some (mkRingBuff (addr b) (arrLen b) rp (writePos b) (flags b), item).

(** [index0] and [item0] are what the locals [index] and [item] hold when
    the function starts: the first branch leaves [item] as it was, the
    second one starts from [index] as it was. *)
Definition p_read (index0 : Z) (item0 : ptr) (b : ringBuff T)
  : option (ringBuff T * ptr) :=
  if truthy (CHECK_BITMASK (flags b) FLAG_EMPTY) then
    let index := to_u8 (readPos b - 1) in
    let index := if index >? arrLen b then to_u8 (arrLen b - 1) else index in
    Some (b, item0)
  else
    let item := index0 in
    let index := to_u8 (index0 + 1) in
    rp ← umod index (arrLen b);
    let fl := CLEAR_BITMASK (flags b) FLAG_FULL in
    let fl := if index =? writePos b then SET_BITMASK fl FLAG_EMPTY else fl in
    Some (mkRingBuff (addr b) (arrLen b) rp (writePos b) fl, item).

(** [isFull] and [isEmpty] (lines 128-137) return
    [CHECK_BITMASK(buff->flags, ...)], where [buff] is the struct itself and
    not a pointer to it: they are ill-formed as soon as they are
    instantiated, no program can call them, and they are not embedded. *)

End Ops.
End RefForm.

(** ** The value form, [RingBuffer<T, 1>] (lines 158-288) *)

Module ValForm.
Section Ops.
Context {T : Type}.

Definition RingBuffer (mem : ringBuff T) (arr : list T) (elements : Z)
  : ringBuff T :=
  mkRingBuff arr elements (readPos mem) (writePos mem) (flags mem).

Definition write (data : T) (b : ringBuff T) : option (ringBuff T * Z) :=
  a ← store (addr b) (writePos b) data;
  wp ← umod (to_u8 (writePos b + 1)) (arrLen b);
  Some (mkRingBuff a (arrLen b) (readPos b) wp (flags b), wp).

Definition p_write (data : T) (b : ringBuff T) : option (ringBuff T * Z) :=
  if truthy (CHECK_BITMASK (flags b) FLAG_FULL) then
    let ret := to_u8 (writePos b - 1) in
    let ret := if ret >? arrLen b then arrLen b else ret in
    Some (b, ret)
  else
    a ← store (addr b) (writePos b) data;
    ret ← umod (to_u8 (writePos b + 1)) (arrLen b);
    let fl := CLEAR_BITMASK (flags b) FLAG_EMPTY in
    let fl := if ret =? readPos b then SET_BITMASK fl FLAG_FULL else fl in
    Some (mkRingBuff a (arrLen b) (readPos b) ret fl, ret).

(** [T item = b->addr[b->readPos++]] loads the element. *)
Definition read (b : ringBuff T) : option (ringBuff T * T) :=
  item ← load (addr b) (readPos b);
  rp ← umod (to_u8 (readPos b + 1)) (arrLen b);
  Some (mkRingBuff (addr b) (arrLen b) rp (writePos b) (flags b), item).

(** The function is declared [T* p_read()] and returns the local [T item];
    the result here is that [item]. *)
Definition p_read (index0 : Z) (item0 : T) (b : ringBuff T)
  : option (ringBuff T * T) :=
  if truthy (CHECK_BITMASK (flags b) FLAG_EMPTY) then
    let index := to_u8 (readPos b - 1) in
    let index := if index >? arrLen b then to_u8 (arrLen b - 1) else index in
    Some (b, item0)
  else
    item ← load (addr b) index0;
    let index := to_u8 (index0 + 1) in
    rp ← umod index (arrLen b);
    let fl := CLEAR_BITMASK (flags b) FLAG_FULL in
    let fl := if index =? writePos b then SET_BITMASK fl FLAG_EMPTY else fl in
    Some (mkRingBuff (addr b) (arrLen b) rp (writePos b) fl, item).

(** [isFull] and [isEmpty] (lines 268-277) read [buff->flags] as in the
    primary template and are not embedded either. *)

End Ops.
End ValForm.

(** ** Sequences of operations on the reference form *)

Module Seq.

(** An operation of the class, with its argument; [P_read] also carries the
    contents of the two locals it starts from. *)
Inductive op (T : Type) : Type :=
  | Write (data : T)
  | Read
  | P_write (data : T)
  | P_read (index0 : Z) (item0 : ptr).
Arguments Write {T} _.
Arguments Read {T}.
Arguments P_write {T} _.
Arguments P_read {T} _ _.

(** What an operation returns: the [uint8_t] of a write, the [T *] of a
    read. *)
Inductive result : Type :=
  | Index (i : Z)
  | Item (p : ptr).

Definition protected {T : Type} (o : op T) : bool :=
  match o with
  | P_write _ | P_read _ _ => true
  | Write _ | Read => false
  end.

Definition step {T : Type} (o : op T) (b : ringBuff T)
  : option (ringBuff T * result) :=
  match o with
  | Write d => '(b', i) ← RefForm.write d b; Some (b', Index i)
  | Read => '(b', p) ← RefForm.read b; Some (b', Item p)
  | P_write d => '(b', i) ← RefForm.p_write d b; Some (b', Index i)
  | P_read i0 p0 => '(b', p) ← RefForm.p_read i0 p0 b; Some (b', Item p)
  end.

(** The operations of [ops] one after the other, with what each returned. *)
Fixpoint run {T : Type} (ops : list (op T)) (b : ringBuff T)
  : option (ringBuff T * list result) :=
  match ops with
  | [] => Some (b, [])
  | o :: ops' =>
      '(b1, r) ← step o b;
      '(b2, rs) ← run ops' b1;
      Some (b2, r :: rs)
  end.

End Seq.

(** ** Well-formed buffers

    The data model of the class: a capacity that is a positive [uint8_t],
    an array of that many elements, both cursors inside it. *)

Definition wf {T : Type} (b : ringBuff T) : Prop :=
  1 <= arrLen b <= 255 /\
  Z.of_nat (length (addr b)) = arrLen b /\
  0 <= readPos b < arrLen b /\
  0 <= writePos b < arrLen b.

(** The storage of an object of static storage duration before its
    constructor runs: every member is zero. *)
Definition zeroed {T : Type} : ringBuff T := mkRingBuff [] 0 0 0 0.

(** A buffer over [arr] with both cursors at 0 and no flag set: what the
    constructor gives on zeroed storage. *)
Definition fresh {T : Type} (arr : list T) : ringBuff T :=
  RefForm.RingBuffer zeroed arr (Z.of_nat (length arr)).

(** ** Derived notions and example buffers *)

(** The state a protected write leaves when it is accepted. *)
Definition written {T : Type} (data : T) (b : ringBuff T) : ringBuff T :=
  let wp := (writePos b + 1) mod arrLen b in
  let fl := CLEAR_BITMASK (flags b) FLAG_EMPTY in
  mkRingBuff (<[Z.to_nat (writePos b) := data]> (addr b)) (arrLen b)
    (readPos b) wp (if wp =? readPos b then SET_BITMASK fl FLAG_FULL else fl).

(** The index a rejected protected write returns. *)
Definition sentinel {T : Type} (b : ringBuff T) : Z :=
  if writePos b =? 0 then arrLen b else writePos b - 1.

(** Capacity 2, filled with 1 and 2 by two protected writes: FULL is set. *)
Definition full2 : ringBuff Z := mkRingBuff [1; 2] 2 0 0 FLAG_FULL.

(** FULL and EMPTY set at once. *)
Definition both_set {T : Type} (b : ringBuff T) : Prop :=
  full_flag b <> 0 /\ empty_flag b <> 0.

(** Splits a successful step [H] along the branch taken and the partial
    operations met. *)
Ltac step_cases H :=
  repeat match type of H with
  | context [truthy ?c] => destruct (truthy c) eqn:?
  | context [store ?a ?i ?v] => destruct (store a i v) eqn:?
  | context [umod ?x ?n] => destruct (umod x n) eqn:?
  | context [load ?a ?i] => destruct (load a i) eqn:?
  | _ => progress simpl in H
  end;
  try discriminate H.

(** Three protected writes, then three protected reads. *)
Definition fill_and_drain2 : list (Seq.op Z) :=
  [Seq.P_write 1; Seq.P_write 2; Seq.P_write 3;
   Seq.P_read 0 0; Seq.P_read 1 0; Seq.P_read 0 0].

(** [n] times [*rb.read()]: each pointer is dereferenced as soon as [read]
    has returned it. *)
Fixpoint read_values {T : Type} (n : nat) (b : ringBuff T)
  : option (ringBuff T * list T) :=
  match n with
  | O => Some (b, [])
  | S n' =>
      '(b1, p) ← RefForm.read b;
      v ← load (addr b1) p;
      '(b2, vs) ← read_values n' b1;
      Some (b2, v :: vs)
  end.

(** The behaviour C1 describes for a buffer whose EMPTY flag is clear: the
    slot at the read cursor is returned, the read cursor advances modulo the
    capacity, FULL is cleared and EMPTY is set when the advanced read cursor
    equals the write cursor. *)
Definition p_read_described {T : Type} (b : ringBuff T) : ringBuff T * ptr :=
  let rp := (readPos b + 1) mod arrLen b in
  let fl := CLEAR_BITMASK (flags b) FLAG_FULL in
  (mkRingBuff (addr b) (arrLen b) rp (writePos b)
     (if rp =? writePos b then SET_BITMASK fl FLAG_EMPTY else fl),
   readPos b).

(** Capacity 2 after [write(10)], [write(20)], [read()]: the read cursor is
    on slot 1, the write cursor on slot 0, no flag is set. *)
Definition one_unread : ringBuff Z := mkRingBuff [10; 20] 2 1 0 0.

(** The slot [p_read] works out in its first branch: the one before the read
    cursor, the last one when the read cursor is 0. The function assigns it
    to [index] and does not use [index] afterwards. *)
Definition stale_index {T : Type} (b : ringBuff T) : Z :=
  let index := to_u8 (readPos b - 1) in
  if index >? arrLen b then to_u8 (arrLen b - 1) else index.

(** Capacity 2, filled with 1 and 2 and read out in full: both cursors are
    back on slot 0, the last read returned slot 1, EMPTY is set. *)
Definition drained2 : ringBuff Z := mkRingBuff [1; 2] 2 0 0 FLAG_EMPTY.

(** The storage of an object that has not been zeroed: the byte where
    [flags] lives holds 3. *)
Definition stale_storage : ringBuff Z := mkRingBuff [] 0 0 0 3.

(** Capacity 3 with nothing read or written yet. *)
Definition three : ringBuff Z := fresh [10; 20; 30].

(** ** Accepted writes as a relation

    [write] and an accepted [p_write] do the same to the array and the
    cursors; [put_step] is that common effect, [puts] a chain of them. *)

Definition put_step {T : Type} (d : T) (b b' : ringBuff T) : Prop :=
  addr b' = <[Z.to_nat (writePos b) := d]> (addr b) /\
  arrLen b' = arrLen b /\
  readPos b' = readPos b /\
  writePos b' = (writePos b + 1) mod arrLen b.

Inductive puts {T : Type} : list T -> ringBuff T -> ringBuff T -> Prop :=
  | puts_nil (b : ringBuff T) : puts [] b b
  | puts_snoc (ds : list T) (d : T) (b b1 b2 : ringBuff T) :
      puts ds b b1 -> put_step d b1 b2 -> puts (ds ++ [d]) b b2.

(** The slot [i] places after the cursor [pos], wrapping at the capacity. *)
Definition slot {T : Type} (b : ringBuff T) (pos : Z) (i : nat) : nat :=
  Z.to_nat ((pos + Z.of_nat i) mod arrLen b).

Definition is_read {T : Type} (o : Seq.op T) : bool :=
  match o with
  | Seq.Read | Seq.P_read _ _ => true
  | Seq.Write _ | Seq.P_write _ => false
  end.

(** ** The two forms on the operations both define without a local read
    before assignment *)

Module Forms.

Inductive op (T : Type) : Type :=
  | Write (data : T)
  | Read
  | P_write (data : T).
Arguments Write {T} _.
Arguments Read {T}.
Arguments P_write {T} _.

(** What the caller gets: the index of a write, the element of a read. *)
Inductive result (T : Type) : Type :=
  | Index (i : Z)
  | Elem (v : T).
Arguments Index {T} _.
Arguments Elem {T} _.

(** The reference form; the caller dereferences the pointer [read] returns
    before doing anything else. *)
Definition ref_step {T : Type} (o : op T) (b : ringBuff T)
  : option (ringBuff T * result T) :=
  match o with
  | Write d => '(b', i) ← RefForm.write d b; Some (b', Index i)
  | Read => '(b', p) ← RefForm.read b; v ← load (addr b') p; Some (b', Elem v)
  | P_write d => '(b', i) ← RefForm.p_write d b; Some (b', Index i)
  end.

Definition val_step {T : Type} (o : op T) (b : ringBuff T)
  : option (ringBuff T * result T) :=
  match o with
  | Write d => '(b', i) ← ValForm.write d b; Some (b', Index i)
  | Read => '(b', v) ← ValForm.read b; Some (b', Elem v)
  | P_write d => '(b', i) ← ValForm.p_write d b; Some (b', Index i)
  end.

Fixpoint run {T : Type}
    (step : op T -> ringBuff T -> option (ringBuff T * result T))
    (ops : list (op T)) (b : ringBuff T)
  : option (ringBuff T * list (result T)) :=
  match ops with
  | [] => Some (b, [])
  | o :: ops' =>
      '(b1, r) ← step o b;
      '(b2, rs) ← run step ops' b1;
      Some (b2, r :: rs)
  end.

End Forms.

(** A [p_read] whose local [index] holds a byte other than 255. *)
Definition low_read {T : Type} (o : Seq.op T) : bool :=
  match o with
  | Seq.P_read index0 _ => (0 <=? index0) && (index0 <? 255)
  | _ => false
  end.

(** * Properties *)

(** ** Bytes and flag bits *)

Lemma to_u8_small (z : Z) : 0 <= z < 256 -> to_u8 z = z.
Proof. intros H. unfold to_u8. now apply Z.mod_small. Qed.

Lemma truthy_true (z : Z) : truthy z = true <-> z <> 0.
Proof. unfold truthy. destruct (Z.eqb_spec z 0); simpl; split; congruence. Qed.

Lemma truthy_false (z : Z) : truthy z = false <-> z = 0.
Proof. unfold truthy. destruct (Z.eqb_spec z 0); simpl; split; congruence. Qed.

Lemma check_clear (x y : Z) : CHECK_BITMASK (CLEAR_BITMASK x y) y = 0.
Proof.
  unfold CHECK_BITMASK, CLEAR_BITMASK.
  rewrite <- Z.land_assoc, (Z.land_comm (Z.lnot y)), Z.land_lnot_diag.
  apply Z.land_0_r.
Qed.

Lemma check_set (x y : Z) : CHECK_BITMASK (SET_BITMASK x y) y = y.
Proof.
  unfold CHECK_BITMASK, SET_BITMASK.
  apply Z.bits_inj'. intros n _.
  rewrite Z.land_spec, Z.lor_spec.
  destruct (Z.testbit x n), (Z.testbit y n); reflexivity.
Qed.

Lemma check_full_clear_empty (x : Z) :
  CHECK_BITMASK (CLEAR_BITMASK x FLAG_EMPTY) FLAG_FULL = CHECK_BITMASK x FLAG_FULL.
Proof.
  unfold CHECK_BITMASK, CLEAR_BITMASK. now rewrite <- Z.land_assoc.
Qed.

Lemma check_empty_set_full (x : Z) :
  CHECK_BITMASK (SET_BITMASK x FLAG_FULL) FLAG_EMPTY = CHECK_BITMASK x FLAG_EMPTY.
Proof.
  unfold CHECK_BITMASK, SET_BITMASK.
  rewrite Z.land_lor_distr_l. apply Z.lor_0_r.
Qed.

Lemma check_full_set_empty (x : Z) :
  CHECK_BITMASK (SET_BITMASK x FLAG_EMPTY) FLAG_FULL = CHECK_BITMASK x FLAG_FULL.
Proof.
  unfold CHECK_BITMASK, SET_BITMASK.
  rewrite Z.land_lor_distr_l. apply Z.lor_0_r.
Qed.

(** ** The array and the modulus on a well-formed buffer *)

Lemma store_inside {T : Type} (a : list T) (i : Z) (v : T) :
  0 <= i < Z.of_nat (length a) ->
  store a i v = Some (<[Z.to_nat i := v]> a).
Proof.
  intros [H0 H1]. unfold store.
  apply Z.leb_le in H0. apply Z.ltb_lt in H1. now rewrite H0, H1.
Qed.

Lemma umod_pos (x n : Z) : 0 < n -> umod x n = Some (x mod n).
Proof.
  intros H. unfold umod. destruct (Z.eqb_spec n 0); [lia | reflexivity].
Qed.

(** On a cursor inside a byte-sized array the [uint8_t] increment does not
    wrap, so the new cursor is the old one plus one, modulo the capacity. *)
Lemma advance_in_range (pos n : Z) :
  0 <= pos < n -> n <= 255 ->
  umod (to_u8 (pos + 1)) n = Some ((pos + 1) mod n).
Proof.
  intros Hp Hn. rewrite to_u8_small by lia. apply umod_pos. lia.
Qed.

(** ** Protected write *)

Lemma p_write_accepts {T : Type} (data : T) (b : ringBuff T) :
  wf b -> full_flag b = 0 ->
  RefForm.p_write data b = Some (written data b, writePos (written data b)).
Proof.
  intros (Hn & Hlen & Hr & Hw) Hfull.
  unfold RefForm.p_write. unfold full_flag in Hfull.
  apply truthy_false in Hfull. rewrite Hfull.
  rewrite store_inside by lia. simpl.
  rewrite advance_in_range by lia. reflexivity.
Qed.

Lemma forms_p_write {T : Type} (data : T) (b : ringBuff T) :
  ValForm.p_write data b = RefForm.p_write data b.
Proof. reflexivity. Qed.

(** C2. On a buffer whose FULL flag is clear, [p_write data] stores [data]
    at the write cursor, advances the write cursor modulo the capacity,
    clears EMPTY, sets FULL exactly when the advanced write cursor equals
    the read cursor, and returns the advanced write cursor; the read cursor
    and the capacity stay. Both forms of the class do so. *)
Theorem p_write_stores_when_not_full {T : Type} (data : T) (b : ringBuff T) :
  wf b -> full_flag b = 0 ->
  exists b' : ringBuff T,
    RefForm.p_write data b = Some (b', writePos b') /\
    ValForm.p_write data b = Some (b', writePos b') /\
    addr b' = <[Z.to_nat (writePos b) := data]> (addr b) /\
    addr b' !! Z.to_nat (writePos b) = Some data /\
    writePos b' = (writePos b + 1) mod arrLen b /\
    readPos b' = readPos b /\
    arrLen b' = arrLen b /\
    empty_flag b' = 0 /\
    (full_flag b' <> 0 <-> writePos b' = readPos b').
Proof.
  intros Hwf Hfull. exists (written data b).
  pose proof (p_write_accepts data b Hwf Hfull) as Hacc.
  split; [exact Hacc|]. split; [exact Hacc|].
  destruct Hwf as (Hn & Hlen & Hr & Hw).
  repeat split; try reflexivity.
  - simpl. apply list_lookup_insert_eq. lia.
  - unfold empty_flag, written; simpl.
    destruct (_ =? _); [rewrite check_empty_set_full|]; apply check_clear.
  - unfold full_flag, written; simpl.
    destruct (Z.eqb_spec ((writePos b + 1) mod arrLen b) (readPos b)) as [E|E];
      [easy|].
    rewrite check_full_clear_empty. intros H. now elim H.
  - unfold full_flag, written; simpl. intros E.
    apply Z.eqb_eq in E. rewrite E, check_set. discriminate.
Qed.

Lemma p_write_stores_when_not_full_witness :
  exists b' : ringBuff Z,
    RefForm.p_write 7 (fresh [0; 0]) = Some (b', writePos b') /\
    ValForm.p_write 7 (fresh [0; 0]) = Some (b', writePos b') /\
    addr b' = [7; 0] /\
    addr b' !! 0%nat = Some 7 /\
    writePos b' = 1 /\
    readPos b' = 0 /\
    arrLen b' = 2 /\
    empty_flag b' = 0 /\
    (full_flag b' <> 0 <-> writePos b' = readPos b').
Proof.
  apply (p_write_stores_when_not_full 7 (fresh [0; 0])).
  - unfold wf; simpl; lia.
  - reflexivity.
Defined.

Lemma p_write_rejects {T : Type} (data : T) (b : ringBuff T) :
  wf b -> full_flag b <> 0 ->
  RefForm.p_write data b = Some (b, sentinel b).
Proof.
  intros (Hn & Hlen & Hr & Hw) Hfull.
  unfold RefForm.p_write, sentinel. unfold full_flag in Hfull.
  apply truthy_true in Hfull. rewrite Hfull.
  destruct (Z.eqb_spec (writePos b) 0) as [E|E].
  - rewrite E. change (to_u8 (0 - 1)) with 255.
    destruct (Z.gtb_spec 255 (arrLen b)); [reflexivity|].
    do 3 f_equal. lia.
  - rewrite to_u8_small by lia.
    destruct (Z.gtb_spec (writePos b - 1) (arrLen b)); [lia | reflexivity].
Qed.

(** C3. On a buffer whose FULL flag is set, [p_write] stores nothing and
    leaves the whole state (array, cursors, flags) as it was; it returns the
    write cursor minus one, or the capacity when the write cursor is 0 and
    the subtraction would underflow. Any number of such calls in a row
    return that same index. Both forms of the class do so. *)
Theorem p_write_rejects_when_full {T : Type} (b : ringBuff T) :
  wf b -> full_flag b <> 0 ->
  (forall data : T,
     RefForm.p_write data b = Some (b, sentinel b) /\
     ValForm.p_write data b = Some (b, sentinel b)) /\
  (writePos b = 0 -> sentinel b = arrLen b) /\
  (writePos b <> 0 -> sentinel b = writePos b - 1) /\
  (forall ds : list T,
     Seq.run (map Seq.P_write ds) b
     = Some (b, map (fun _ => Seq.Index (sentinel b)) ds)).
Proof.
  intros Hwf Hfull. repeat split.
  - now apply p_write_rejects.
  - exact (p_write_rejects data b Hwf Hfull).
  - intros E. unfold sentinel. now rewrite E.
  - intros E. unfold sentinel.
    destruct (Z.eqb_spec (writePos b) 0); [contradiction | reflexivity].
  - induction ds as [|d ds IH]; [reflexivity|].
    simpl. rewrite (p_write_rejects d b Hwf Hfull). simpl.
    rewrite IH. reflexivity.
Qed.

Lemma p_write_rejects_when_full_witness :
  wf full2 /\ full_flag full2 <> 0 /\
  RefForm.p_write 9 full2 = Some (full2, 2) /\
  Seq.run [Seq.P_write 9; Seq.P_write 8] full2
  = Some (full2, [Seq.Index 2; Seq.Index 2]).
Proof.
  assert (Hwf : wf full2) by (unfold wf; simpl; lia).
  assert (Hfull : full_flag full2 <> 0) by (vm_compute; discriminate).
  destruct (p_write_rejects_when_full full2 Hwf Hfull) as (Hp & _ & _ & Hrun).
  split; [exact Hwf|]. split; [exact Hfull|].
  split; [exact (proj1 (Hp 9)) | exact (Hrun [9; 8])].
Defined.

(** ** One step keeps the buffer well formed and the flags exclusive *)

Lemma step_flags {T : Type} (o : Seq.op T) (b b' : ringBuff T) (r : Seq.result) :
  Seq.step o b = Some (b', r) -> ~ both_set b -> ~ both_set b'.
Proof.
  intros H Hb. unfold both_set, full_flag, empty_flag in *.
  destruct o as [d| |d|i0 p0]; simpl in H;
    [unfold RefForm.write in H | unfold RefForm.read in H
    | unfold RefForm.p_write in H | unfold RefForm.p_read in H];
    step_cases H; injection H as <- <-; simpl; try exact Hb.
  - (* an accepted protected write leaves EMPTY clear *)
    intros [_ He]. apply He.
    destruct (_ =? _); [rewrite check_empty_set_full|]; apply check_clear.
  - (* an accepted protected read leaves FULL clear *)
    intros [Hf _]. apply Hf.
    destruct (_ =? _); [rewrite check_full_set_empty|]; apply check_clear.
Qed.

Lemma written_wf {T : Type} (data : T) (b : ringBuff T) :
  wf b -> wf (written data b).
Proof.
  intros (Hn & Hlen & Hr & Hw). unfold wf, written; simpl.
  rewrite length_insert.
  pose proof (Z.mod_pos_bound (writePos b + 1) (arrLen b)). lia.
Qed.

Lemma step_wf {T : Type} (o : Seq.op T) (b : ringBuff T) :
  wf b -> exists b' r, Seq.step o b = Some (b', r) /\ wf b'.
Proof.
  intros Hwf. pose proof Hwf as (Hn & Hlen & Hr & Hw).
  destruct o as [d| |d|i0 p0]; simpl.
  - unfold RefForm.write. rewrite store_inside by lia. simpl.
    rewrite advance_in_range by lia. simpl. eexists _, _. split; [reflexivity|].
    unfold wf; simpl. rewrite length_insert.
    pose proof (Z.mod_pos_bound (writePos b + 1) (arrLen b)). lia.
  - unfold RefForm.read. rewrite advance_in_range by lia. simpl.
    eexists _, _. split; [reflexivity|].
    unfold wf; simpl.
    pose proof (Z.mod_pos_bound (readPos b + 1) (arrLen b)). lia.
  - destruct (Z.eq_dec (full_flag b) 0) as [E|E].
    + rewrite p_write_accepts by assumption. simpl.
      eexists _, _. split; [reflexivity|]. now apply written_wf.
    + rewrite p_write_rejects by assumption. simpl.
      eexists _, _. split; [reflexivity | assumption].
  - unfold RefForm.p_read. destruct (truthy _).
    + simpl. eexists _, _. split; [reflexivity | assumption].
    + rewrite umod_pos by lia. simpl. eexists _, _. split; [reflexivity|].
      unfold wf; simpl.
      pose proof (Z.mod_pos_bound (to_u8 (i0 + 1)) (arrLen b)). lia.
Qed.

Lemma run_wf {T : Type} (ops : list (Seq.op T)) (b : ringBuff T) :
  wf b -> exists b' rs, Seq.run ops b = Some (b', rs) /\ wf b'.
Proof.
  revert b. induction ops as [|o ops IH]; intros b Hwf.
  - exists b, []. split; [reflexivity | assumption].
  - destruct (step_wf o b Hwf) as (b1 & r & Hstep & Hwf1).
    destruct (IH b1 Hwf1) as (b2 & rs & Hrun & Hwf2).
    exists b2, (r :: rs). simpl. rewrite Hstep. simpl. rewrite Hrun. simpl.
    split; [reflexivity | assumption].
Qed.

Lemma run_flags {T : Type} (ops : list (Seq.op T)) (b b' : ringBuff T)
    (rs : list Seq.result) :
  Seq.run ops b = Some (b', rs) -> ~ both_set b -> ~ both_set b'.
Proof.
  revert b rs. induction ops as [|o ops IH]; intros b rs H Hb; simpl in H.
  - now injection H as <- _.
  - destruct (Seq.step o b) as [[b1 r]|] eqn:Hstep; [|discriminate H].
    simpl in H.
    destruct (Seq.run ops b1) as [[b2 rs']|] eqn:Hrun; [|discriminate H].
    simpl in H. injection H as <- _.
    eapply IH; [exact Hrun|]. eapply step_flags; eassumption.
Qed.

Lemma step_arrLen {T : Type} (o : Seq.op T) (b b' : ringBuff T) (r : Seq.result) :
  Seq.step o b = Some (b', r) -> arrLen b' = arrLen b.
Proof.
  intros H.
  destruct o as [d| |d|i0 p0]; simpl in H;
    [unfold RefForm.write in H | unfold RefForm.read in H
    | unfold RefForm.p_write in H | unfold RefForm.p_read in H];
    step_cases H; injection H as <- <-; reflexivity.
Qed.

Lemma run_arrLen {T : Type} (ops : list (Seq.op T)) (b b' : ringBuff T)
    (rs : list Seq.result) :
  Seq.run ops b = Some (b', rs) -> arrLen b' = arrLen b.
Proof.
  revert b rs. induction ops as [|o ops IH]; intros b rs H; simpl in H.
  - now injection H as <- _.
  - destruct (Seq.step o b) as [[b1 r]|] eqn:Hstep; [|discriminate H].
    simpl in H.
    destruct (Seq.run ops b1) as [[b2 rs']|] eqn:Hrun; [|discriminate H].
    simpl in H. injection H as <- _.
    rewrite (IH _ _ Hrun). eapply step_arrLen; eassumption.
Qed.

(** ** Invariants over sequences of operations *)

(** C5. From a buffer with both flags clear, no sequence of protected
    operations ([p_write], [p_read]) reaches a state with FULL and EMPTY both
    set; on a well-formed buffer every such sequence runs to its end. *)
Theorem protected_flags_exclusive {T : Type} (ops : list (Seq.op T))
    (b : ringBuff T) :
  Forall (fun o => Seq.protected o = true) ops ->
  full_flag b = 0 -> empty_flag b = 0 ->
  (forall b' rs, Seq.run ops b = Some (b', rs) ->
     ~ (full_flag b' <> 0 /\ empty_flag b' <> 0)) /\
  (wf b ->
   exists b' rs, Seq.run ops b = Some (b', rs) /\
     ~ (full_flag b' <> 0 /\ empty_flag b' <> 0)).
Proof.
  intros _ Hf He.
  assert (Hb : ~ both_set b) by (intros [H _]; now apply H).
  split.
  - intros b' rs Hrun. exact (run_flags ops b b' rs Hrun Hb).
  - intros Hwf. destruct (run_wf ops b Hwf) as (b' & rs & Hrun & _).
    exists b', rs. split; [exact Hrun|].
    exact (run_flags ops b b' rs Hrun Hb).
Qed.

Lemma protected_flags_exclusive_witness :
  Forall (fun o => Seq.protected o = true) fill_and_drain2 /\
  full_flag (fresh [0; 0]) = 0 /\ empty_flag (fresh [0; 0]) = 0 /\
  wf (fresh [0; 0]) /\
  exists b' rs, Seq.run fill_and_drain2 (fresh [0; 0]) = Some (b', rs) /\
    ~ (full_flag b' <> 0 /\ empty_flag b' <> 0).
Proof.
  assert (Hp : Forall (fun o => Seq.protected o = true) fill_and_drain2)
    by (repeat constructor).
  assert (Hwf : wf (fresh [0; 0])) by (unfold wf; simpl; lia).
  split; [exact Hp|]. split; [reflexivity|]. split; [reflexivity|].
  split; [exact Hwf|].
  exact (proj2 (protected_flags_exclusive fill_and_drain2 (fresh [0; 0])
                  Hp eq_refl eq_refl) Hwf).
Defined.

(** C7. On a buffer of capacity at least 1 (over an array of that many
    elements) whose cursors start in range, every sequence of [write],
    [read], [p_write] and [p_read] runs to its end, and after it the read
    cursor and the write cursor are both at least 0 and below the capacity,
    which has not changed. *)
Theorem cursors_stay_in_range {T : Type} (ops : list (Seq.op T))
    (b : ringBuff T) :
  wf b ->
  exists b' rs, Seq.run ops b = Some (b', rs) /\
    arrLen b' = arrLen b /\
    0 <= readPos b' < arrLen b' /\
    0 <= writePos b' < arrLen b'.
Proof.
  intros Hwf. destruct (run_wf ops b Hwf) as (b' & rs & Hrun & Hwf').
  exists b', rs. split; [exact Hrun|].
  split; [exact (run_arrLen ops b b' rs Hrun)|].
  destruct Hwf' as (_ & _ & Hr & Hw). split; assumption.
Qed.

Lemma cursors_stay_in_range_witness :
  wf (fresh [0; 0; 0]) /\
  exists b' rs,
    Seq.run [Seq.Write 1; Seq.P_read 200 0; Seq.Read; Seq.P_write 4]
      (fresh [0; 0; 0]) = Some (b', rs) /\
    arrLen b' = arrLen (fresh [0; 0; 0]) /\
    0 <= readPos b' < arrLen b' /\
    0 <= writePos b' < arrLen b'.
Proof.
  assert (Hwf : wf (fresh [0; 0; 0])) by (unfold wf; simpl; lia).
  split; [exact Hwf|].
  exact (cursors_stay_in_range _ (fresh [0; 0; 0]) Hwf).
Defined.

(** ** Unprotected writes *)

Lemma forms_write {T : Type} (data : T) (b : ringBuff T) :
  ValForm.write data b = RefForm.write data b.
Proof. reflexivity. Qed.

Lemma write_in_range {T : Type} (data : T) (b : ringBuff T) :
  wf b ->
  RefForm.write data b
  = Some (mkRingBuff (<[Z.to_nat (writePos b) := data]> (addr b)) (arrLen b)
            (readPos b) ((writePos b + 1) mod arrLen b) (flags b),
          (writePos b + 1) mod arrLen b).
Proof.
  intros (Hn & Hlen & Hr & Hw). unfold RefForm.write.
  rewrite store_inside by lia. simpl.
  rewrite advance_in_range by lia. reflexivity.
Qed.

(** [length ds] writes that fit between the write cursor and the end of the
    array lay [ds] down from the cursor on and touch nothing else. *)
Lemma run_writes {T : Type} (ds : list T) (b : ringBuff T) :
  wf b -> writePos b + Z.of_nat (length ds) <= arrLen b ->
  exists rs,
    Seq.run (map Seq.Write ds) b
    = Some (mkRingBuff
              (take (Z.to_nat (writePos b)) (addr b) ++ ds ++
               drop (Z.to_nat (writePos b) + length ds)%nat (addr b))
              (arrLen b) (readPos b)
              ((writePos b + Z.of_nat (length ds)) mod arrLen b) (flags b),
            rs).
Proof.
  revert b. induction ds as [|d ds IH]; intros b Hwf Hfit.
  - exists []. pose proof Hwf as (Hn & Hlen & Hr & Hw). simpl.
    rewrite Nat.add_0_r, take_drop, Z.add_0_r, Z.mod_small by lia.
    now destruct b.
  - pose proof Hwf as (Hn & Hlen & Hr & Hw). simpl in Hfit.
    simpl. rewrite write_in_range by assumption. simpl.
    set (w := Z.to_nat (writePos b)).
    assert (Hwlt : (w < length (addr b))%nat) by lia.
    destruct ds as [|d' ds'].
    + eexists. simpl. do 3 f_equal.
      rewrite Nat.add_1_r. now apply insert_take_drop.
    + simpl in Hfit.
      assert (Hstep : (writePos b + 1) mod arrLen b = writePos b + 1)
        by (apply Z.mod_small; lia).
      set (b1 := mkRingBuff (<[w:=d]> (addr b)) (arrLen b) (readPos b)
                   ((writePos b + 1) mod arrLen b) (flags b)).
      assert (Hwf1 : wf b1).
      { unfold wf, b1; simpl. rewrite length_insert, Hstep. lia. }
      destruct (IH b1 Hwf1) as [rs Hrs].
      { unfold b1; simpl. rewrite Hstep. simpl. lia. }
      rewrite Hrs. simpl. eexists. do 2 f_equal.
      unfold b1; simpl. rewrite Hstep.
      replace (Z.to_nat (writePos b + 1)) with (S w) by lia.
      f_equal.
      * rewrite (take_S_r _ w d) by now apply list_lookup_insert_eq.
        rewrite take_insert_ge, drop_insert_lt by lia.
        replace (S w + S (length ds'))%nat
          with (w + S (S (length ds')))%nat by lia.
        now rewrite <- app_assoc.
      * f_equal. lia.
Qed.

(** The value form's [write], run over the same elements, goes through the
    same buffers as the reference form's. *)
Lemma val_writes_run {T : Type} (ds : list T) (b b1 : ringBuff T)
    (rs : list Seq.result) :
  Seq.run (map Seq.Write ds) b = Some (b1, rs) ->
  exists vrs,
    Forms.run Forms.val_step (map Forms.Write ds) b = Some (b1, vrs).
Proof.
  revert b rs. induction ds as [|d ds IH]; intros b rs H; simpl in H.
  - injection H as <- _. now exists [].
  - simpl. change (ValForm.write d b) with (RefForm.write d b).
    destruct (RefForm.write d b) as [[b' i]|]; [|discriminate H].
    simpl in H |- *.
    destruct (Seq.run (map Seq.Write ds) b') as [[b2 rs']|] eqn:Hrun;
      [|discriminate H].
    simpl in H. injection H as <- _.
    destruct (IH b' rs' Hrun) as [vrs Hv]. rewrite Hv. simpl. eauto.
Qed.

(** C9. On a buffer of capacity [N] (at least 1) whose write cursor is 0,
    [N] unprotected writes in a row fill the array with the written
    elements in order and bring the write cursor back to 0; the write that
    follows stores its element in slot 0, in place of the element written
    first, and leaves the other slots as they were. The [write] of the
    reference form and the [write] of the value form both do so. *)
Theorem writes_wrap_around {T : Type} (b : ringBuff T) (ds : list T) (d : T) :
  wf b -> writePos b = 0 -> Z.of_nat (length ds) = arrLen b ->
  exists b1 rs vrs b2,
    Seq.run (map Seq.Write ds) b = Some (b1, rs) /\
    Forms.run Forms.val_step (map Forms.Write ds) b = Some (b1, vrs) /\
    writePos b1 = writePos b /\
    addr b1 = ds /\
    addr b1 !! 0%nat = head ds /\
    RefForm.write d b1 = Some (b2, 1 mod arrLen b) /\
    ValForm.write d b1 = Some (b2, 1 mod arrLen b) /\
    addr b2 = <[0%nat := d]> ds /\
    addr b2 !! 0%nat = Some d.
Proof.
  intros Hwf Hw0 Hlen. pose proof Hwf as (Hn & Hal & Hr & Hw).
  destruct (run_writes ds b Hwf) as [rs Hrun]; [lia|].
  rewrite Hw0 in Hrun. simpl in Hrun.
  rewrite drop_ge, app_nil_r, Hlen, Z_mod_same_full in Hrun by lia.
  set (b1 := mkRingBuff ds (arrLen b) (readPos b) 0 (flags b)) in Hrun.
  assert (Hwf1 : wf b1) by (unfold wf, b1; simpl; lia).
  destruct (val_writes_run ds b b1 rs Hrun) as [vrs Hvrun].
  pose proof (write_in_range d b1 Hwf1) as Hlast.
  exists b1, rs, vrs. eexists.
  split; [exact Hrun|]. split; [exact Hvrun|].
  split; [now rewrite Hw0|]. split; [reflexivity|].
  split; [now destruct ds|].
  split; [exact Hlast|]. split; [exact Hlast|].
  split; [reflexivity|].
  simpl. apply list_lookup_insert_eq. lia.
Qed.

Lemma writes_wrap_around_witness :
  wf (fresh [0; 0; 0]) /\ writePos (fresh [0; 0; 0]) = 0 /\
  Z.of_nat (length [5; 6; 7]) = arrLen (fresh [0; 0; 0]) /\
  exists b1 rs vrs b2,
    Seq.run (map Seq.Write [5; 6; 7]) (fresh [0; 0; 0]) = Some (b1, rs) /\
    Forms.run Forms.val_step (map Forms.Write [5; 6; 7]) (fresh [0; 0; 0])
    = Some (b1, vrs) /\
    writePos b1 = writePos (fresh [0; 0; 0]) /\
    addr b1 = [5; 6; 7] /\
    addr b1 !! 0%nat = head [5; 6; 7] /\
    RefForm.write 8 b1 = Some (b2, 1 mod arrLen (fresh [0; 0; 0])) /\
    ValForm.write 8 b1 = Some (b2, 1 mod arrLen (fresh [0; 0; 0])) /\
    addr b2 = <[0%nat := 8]> [5; 6; 7] /\
    addr b2 !! 0%nat = Some 8.
Proof.
  assert (Hwf : wf (fresh [0; 0; 0])) by (unfold wf; simpl; lia).
  split; [exact Hwf|]. split; [reflexivity|]. split; [reflexivity|].
  exact (writes_wrap_around (fresh [0; 0; 0]) [5; 6; 7] 8 Hwf eq_refl eq_refl).
Defined.

(** ** Unprotected reads *)

(** C10. A buffer of capacity 4 over integers, both cursors at 0, whatever
    the array and the flags hold: after the unprotected writes of 10, 20,
    30, 40, four unprotected reads give 10, 20, 30, 40 in that order; after
    a fifth write of 50 before any read the read cursor is still 0, slot 0
    holds 50 and the first read gives 50. *)
Theorem scenario_capacity_4 (a0 a1 a2 a3 fl : Z) :
  let b := mkRingBuff [a0; a1; a2; a3] 4 0 0 fl in
  (exists b4 rs4 b8,
     Seq.run (map Seq.Write [10; 20; 30; 40]) b = Some (b4, rs4) /\
     read_values 4 b4 = Some (b8, [10; 20; 30; 40])) /\
  (exists b5 rs5 b6,
     Seq.run (map Seq.Write [10; 20; 30; 40; 50]) b = Some (b5, rs5) /\
     readPos b5 = 0 /\
     addr b5 !! 0%nat = Some 50 /\
     read_values 1 b5 = Some (b6, [50])).
Proof.
  intros b. split.
  - do 3 eexists. split; reflexivity.
  - do 3 eexists. split; [reflexivity|]. repeat split.
Qed.

(** ** Protected read *)

(** What [p_read] does on a buffer whose EMPTY flag is clear: slot and new
    read cursor come from the local [index], not from the read cursor, and
    EMPTY is set when the incremented [index], not yet reduced, equals the
    write cursor. *)
Lemma p_read_from_local {T : Type} (index0 : Z) (item0 : ptr) (b : ringBuff T) :
  empty_flag b = 0 -> arrLen b <> 0 ->
  RefForm.p_read index0 item0 b
  = Some (mkRingBuff (addr b) (arrLen b) (to_u8 (index0 + 1) mod arrLen b)
            (writePos b)
            (if to_u8 (index0 + 1) =? writePos b
             then SET_BITMASK (CLEAR_BITMASK (flags b) FLAG_FULL) FLAG_EMPTY
             else CLEAR_BITMASK (flags b) FLAG_FULL),
          index0).
Proof.
  intros He Hn. unfold RefForm.p_read. unfold empty_flag in He.
  apply truthy_false in He. rewrite He.
  unfold umod. destruct (Z.eqb_spec (arrLen b) 0); [contradiction|].
  reflexivity.
Qed.

(** C1, on the code. [one_unread] has EMPTY clear and its read cursor on
    slot 1. With the local [index] holding 0, [p_read] returns slot 0 and
    leaves the read cursor on 1. With [index] holding 1 it returns slot 1 and
    moves the read cursor to 0, where the write cursor is, yet EMPTY stays
    clear. Whatever the locals hold, the result is not the described one. *)
Theorem p_read_misses_read_cursor :
  p_read_described one_unread = (mkRingBuff [10; 20] 2 0 0 FLAG_EMPTY, 1) /\
  RefForm.p_read 0 0 one_unread = Some (mkRingBuff [10; 20] 2 1 0 0, 0) /\
  RefForm.p_read 1 0 one_unread = Some (mkRingBuff [10; 20] 2 0 0 0, 1) /\
  (forall index0 item0,
     RefForm.p_read index0 item0 one_unread
     <> Some (p_read_described one_unread)) /\
  (forall index0 item0,
     ValForm.p_read index0 item0 one_unread
     <> Some (fst (p_read_described one_unread), 20)).
Proof.
  split; [reflexivity|]. split; [reflexivity|]. split; [reflexivity|]. split.
  - intros index0 item0.
    rewrite p_read_from_local by (vm_compute; congruence).
    intros H. injection H as _ Hfl Hi. subst index0. discriminate Hfl.
  - intros index0 item0 H.
    unfold ValForm.p_read in H. simpl in H.
    destruct (load [10; 20] index0) as [v|] eqn:Hl; [|discriminate H].
    simpl in H. injection H as _ Hfl Hv. subst v.
    unfold load in Hl. destruct (0 <=? index0) eqn:H0; [|discriminate Hl].
    apply Z.leb_le in H0.
    destruct (Z.to_nat index0) as [|[|k]] eqn:Hk; simpl in Hl;
      try discriminate Hl.
    assert (index0 = 1) by lia. subst index0.
    discriminate Hfl.
Qed.

Lemma p_read_when_empty {T : Type} (index0 : Z) (item0 : ptr) (b : ringBuff T) :
  empty_flag b <> 0 -> RefForm.p_read index0 item0 b = Some (b, item0).
Proof.
  intros He. unfold RefForm.p_read. unfold empty_flag in He.
  apply truthy_true in He. now rewrite He.
Qed.

(** C4, on the code. [drained2] has EMPTY set and its last read returned
    slot 1, which holds 2; [p_read] works that slot out. It leaves the state
    as it was, and returns the local [item] as it found it, in both forms:
    with [item] pointing at slot 0 the caller gets slot 0, which holds 1. *)
Theorem p_read_when_empty_returns_local :
  stale_index drained2 = 1 /\
  load (addr drained2) (stale_index drained2) = Some 2 /\
  (forall index0 item0,
     RefForm.p_read index0 item0 drained2 = Some (drained2, item0)) /\
  (forall index0 item0,
     ValForm.p_read index0 item0 drained2 = Some (drained2, item0)) /\
  RefForm.p_read 0 0 drained2 = Some (drained2, 0) /\
  load (addr drained2) 0 = Some 1.
Proof. repeat split. Qed.

(** ** Construction *)

Lemma RingBuffer_members {T : Type} (mem : ringBuff T) (arr : list T)
    (elements : Z) :
  addr (RefForm.RingBuffer mem arr elements) = arr /\
  arrLen (RefForm.RingBuffer mem arr elements) = elements /\
  readPos (RefForm.RingBuffer mem arr elements) = readPos mem /\
  writePos (RefForm.RingBuffer mem arr elements) = writePos mem.
Proof. repeat split. Qed.

(** C6, on the code. The constructor assigns the array and the element
    count and nothing else: flags and both cursors keep what the object's
    storage held. Constructed on [stale_storage], the buffer has FULL and
    EMPTY both set, in both forms; the very first [p_write] is rejected and
    stores nothing, and the very first [p_read] takes its EMPTY branch. *)
Theorem RingBuffer_leaves_flags_unset :
  flags (RefForm.RingBuffer stale_storage [0; 0] 2) = flags stale_storage /\
  flags (ValForm.RingBuffer stale_storage [0; 0] 2) = flags stale_storage /\
  full_flag (RefForm.RingBuffer stale_storage [0; 0] 2) <> 0 /\
  empty_flag (RefForm.RingBuffer stale_storage [0; 0] 2) <> 0 /\
  full_flag (ValForm.RingBuffer stale_storage [0; 0] 2) <> 0 /\
  empty_flag (ValForm.RingBuffer stale_storage [0; 0] 2) <> 0 /\
  RefForm.p_write 7 (RefForm.RingBuffer stale_storage [0; 0] 2)
  = Some (RefForm.RingBuffer stale_storage [0; 0] 2, 2) /\
  ValForm.p_write 7 (ValForm.RingBuffer stale_storage [0; 0] 2)
  = Some (ValForm.RingBuffer stale_storage [0; 0] 2, 2) /\
  (forall index0 item0,
     RefForm.p_read index0 item0 (RefForm.RingBuffer stale_storage [0; 0] 2)
     = Some (RefForm.RingBuffer stale_storage [0; 0] 2, item0)) /\
  (forall index0 item0,
     ValForm.p_read index0 item0 (ValForm.RingBuffer stale_storage [0; 0] 2)
     = Some (ValForm.RingBuffer stale_storage [0; 0] 2, item0)).
Proof. repeat split; discriminate. Qed.

(** ** The two forms side by side *)

Lemma forms_RingBuffer {T : Type} (mem : ringBuff T) (arr : list T)
    (elements : Z) :
  ValForm.RingBuffer mem arr elements = RefForm.RingBuffer mem arr elements.
Proof. reflexivity. Qed.

(** The value [read] returns in the value form is what the pointer of the
    reference form points at; the state after is the same. *)
Lemma forms_read {T : Type} (b : ringBuff T) :
  ValForm.read b
  = '(b', p) ← RefForm.read b; v ← load (addr b') p; Some (b', v).
Proof.
  unfold ValForm.read, RefForm.read.
  destruct (load (addr b) (readPos b)) as [v|] eqn:Hl; simpl;
    destruct (umod (to_u8 (readPos b + 1)) (arrLen b)); simpl;
    rewrite ?Hl; reflexivity.
Qed.

(** When the local [index] holds the same slot in both forms and that slot
    is inside the array, an accepted [p_read] leaves the same state in both
    and the value of one is what the pointer of the other points at. *)
Lemma forms_p_read_same_local {T : Type} (index0 : Z) (item0 : ptr) (v0 : T)
    (b : ringBuff T) :
  empty_flag b = 0 ->
  ValForm.p_read index0 v0 b
  = '(b', p) ← RefForm.p_read index0 item0 b;
    v ← load (addr b') p; Some (b', v).
Proof.
  intros He. unfold ValForm.p_read, RefForm.p_read.
  unfold empty_flag in He. apply truthy_false in He. rewrite He.
  destruct (load (addr b) index0) as [v|] eqn:Hl; simpl;
    destruct (umod (to_u8 (index0 + 1)) (arrLen b)); simpl;
    rewrite ?Hl; reflexivity.
Qed.

(** C8, on the code. One [p_read] on the same buffer [three] in the two
    forms. The local [index] holds 0 in the reference form and 1 in the
    value form: the read cursors after the call are 1 and 2, the contents
    retrieved 10 and 20. The local holds 7 in both: the reference form
    returns the address of slot 7 and sets the read cursor to 2, the value
    form loads from slot 7, which the array does not have. *)
Theorem forms_differ_on_p_read :
  RefForm.p_read 0 0 three = Some (mkRingBuff [10; 20; 30] 3 1 0 0, 0) /\
  load [10; 20; 30] 0 = Some 10 /\
  ValForm.p_read 1 0 three = Some (mkRingBuff [10; 20; 30] 3 2 0 0, 20) /\
  RefForm.p_read 7 0 three = Some (mkRingBuff [10; 20; 30] 3 2 0 0, 7) /\
  ValForm.p_read 7 0 three = None.
Proof. repeat split. Qed.

(** ** Cursor arithmetic *)

Lemma mod_add_ne (a k n : Z) : 0 < k < n -> (a + k) mod n <> a mod n.
Proof.
  intros Hk E.
  assert (H : (a + k - a) mod n = 0).
  { rewrite Zminus_mod, E, Z.sub_diag. apply Zmod_0_l. }
  replace (a + k - a) with k in H by lia.
  rewrite Z.mod_small in H by lia. lia.
Qed.

Lemma mod_add_back (w k n : Z) :
  0 <= w < n -> 1 <= k <= n -> ((w + k) mod n = w <-> k = n).
Proof.
  intros Hw Hk. split.
  - intros E. destruct (Z.eq_dec k n) as [|Hne]; [assumption|].
    exfalso. apply (mod_add_ne w k n); [lia|].
    rewrite E. symmetry. apply Z.mod_small. lia.
  - intros ->. replace (w + n) with (w + 1 * n) by lia.
    rewrite Z_mod_plus_full. apply Z.mod_small. lia.
Qed.

Lemma slot_lt {T : Type} (b : ringBuff T) (pos : Z) (i : nat) :
  wf b -> (slot b pos i < length (addr b))%nat.
Proof.
  intros (Hn & Hlen & _). unfold slot.
  pose proof (Z.mod_pos_bound (pos + Z.of_nat i) (arrLen b)). lia.
Qed.

Lemma slot_ne {T : Type} (b : ringBuff T) (pos : Z) (i j : nat) :
  wf b -> (i < j)%nat -> Z.of_nat j - Z.of_nat i < arrLen b ->
  slot b pos i <> slot b pos j.
Proof.
  intros (Hn & _) Hij Hd E. unfold slot in E.
  pose proof (Z.mod_pos_bound (pos + Z.of_nat i) (arrLen b)).
  pose proof (Z.mod_pos_bound (pos + Z.of_nat j) (arrLen b)).
  apply (mod_add_ne (pos + Z.of_nat i) (Z.of_nat j - Z.of_nat i) (arrLen b));
    [lia|].
  replace (pos + Z.of_nat i + (Z.of_nat j - Z.of_nat i))
    with (pos + Z.of_nat j) by lia.
  lia.
Qed.

Lemma slot_shift {T : Type} (b : ringBuff T) (pos : Z) (i : nat) :
  slot b ((pos + 1) mod arrLen b) i = slot b pos (S i).
Proof.
  unfold slot. f_equal. rewrite Zplus_mod_idemp_l. f_equal. lia.
Qed.

(** ** Chains of accepted writes *)

Lemma puts_cons {T : Type} (d : T) (ds : list T) (b b1 b2 : ringBuff T) :
  put_step d b b1 -> puts ds b1 b2 -> puts (d :: ds) b b2.
Proof.
  intros Hd Hds. induction Hds as [b1|ds e b1 b2 b3 _ IH He].
  - apply (puts_snoc [] d b b b1); [constructor | assumption].
  - rewrite app_comm_cons. eapply puts_snoc; [now apply IH | exact He].
Qed.

(** After a chain of accepted writes the write cursor has advanced by their
    number, modulo the capacity, and each of the last [arrLen] elements sits
    in its slot, counted from where the write cursor was. *)
Lemma puts_content {T : Type} (ds : list T) (b b' : ringBuff T) :
  puts ds b b' -> wf b ->
  wf b' /\ arrLen b' = arrLen b /\ readPos b' = readPos b /\
  writePos b' = (writePos b + Z.of_nat (length ds)) mod arrLen b /\
  forall (i : nat) (d : T),
    ds !! i = Some d -> Z.of_nat (length ds) - Z.of_nat i <= arrLen b ->
    addr b' !! slot b (writePos b) i = Some d.
Proof.
  intros Hp Hwf. induction Hp as [b|ds e b b1 b2 _ IH He].
  - pose proof Hwf as (Hn & Hlen & Hr & Hw).
    repeat split; try apply Hwf.
    + simpl. rewrite Z.add_0_r. symmetry. apply Z.mod_small. lia.
    + intros i d Hi. now rewrite lookup_nil in Hi.
  - destruct (IH Hwf) as (Hwf1 & Hn1 & Hr1 & Hw1 & Hc1). clear IH.
    destruct He as (Ha & Hn2 & Hr2 & Hw2).
    pose proof Hwf as (Hn & Hlen & Hr & Hw).
    pose proof Hwf1 as (_ & Hlen1 & _ & Hwr1).
    assert (Hcur : Z.to_nat (writePos b1) = slot b (writePos b) (length ds))
      by (unfold slot; now rewrite Hw1).
    split; [|split; [congruence|split; [congruence|split]]].
    + unfold wf. rewrite Ha, length_insert, Hn2, Hr2, Hw2, Hn1, Hr1.
      pose proof (Z.mod_pos_bound (writePos b1 + 1) (arrLen b)). lia.
    + rewrite Hw2, Hw1, Hn1, Zplus_mod_idemp_l, length_app. simpl.
      f_equal. lia.
    + intros i d Hi Hlast. rewrite length_app in Hlast. simpl in Hlast.
      rewrite Ha, Hcur.
      destruct (Nat.eq_dec i (length ds)) as [->|Hne].
      * rewrite lookup_app_r, Nat.sub_diag in Hi by lia.
        injection Hi as ->.
        apply list_lookup_insert_eq. rewrite <- Hcur. lia.
      * assert (Hlt : (i < length ds)%nat).
        { apply lookup_lt_Some in Hi. rewrite length_app in Hi.
          simpl in Hi. lia. }
        rewrite lookup_app_l in Hi by assumption.
        rewrite list_lookup_insert_ne.
        -- apply Hc1; [assumption | lia].
        -- intros E. symmetry in E. revert E.
           apply slot_ne; [assumption | assumption | lia].
Qed.

Lemma load_inside {T : Type} (a : list T) (i : Z) :
  0 <= i -> load a i = a !! Z.to_nat i.
Proof.
  intros H. unfold load. apply Z.leb_le in H. now rewrite H.
Qed.

Lemma read_in_range {T : Type} (b : ringBuff T) :
  wf b ->
  RefForm.read b
  = Some (mkRingBuff (addr b) (arrLen b) ((readPos b + 1) mod arrLen b)
            (writePos b) (flags b), readPos b).
Proof.
  intros (Hn & Hlen & Hr & Hw). unfold RefForm.read.
  rewrite advance_in_range by lia. reflexivity.
Qed.

(** [n] unprotected reads: the [i]-th one hands out the slot [i] places
    after the read cursor; only the read cursor moves. *)
Lemma read_values_slots {T : Type} (n : nat) (b : ringBuff T) :
  wf b ->
  exists vs,
    read_values n b
    = Some (mkRingBuff (addr b) (arrLen b)
              ((readPos b + Z.of_nat n) mod arrLen b) (writePos b) (flags b),
            vs) /\
    length vs = n /\
    forall i : nat, (i < n)%nat -> vs !! i = addr b !! slot b (readPos b) i.
Proof.
  revert b. induction n as [|n IH]; intros b Hwf;
    pose proof Hwf as (Hn & Hlen & Hr & Hw).
  - exists []. simpl. rewrite Z.add_0_r, Z.mod_small by lia.
    split; [now destruct b|]. split; [reflexivity | lia].
  - simpl read_values. rewrite read_in_range by assumption. simpl.
    rewrite load_inside by lia.
    destruct (lookup_lt_is_Some_2 (addr b) (Z.to_nat (readPos b))) as [v Hv];
      [lia|].
    rewrite Hv. simpl.
    set (b1 := mkRingBuff (addr b) (arrLen b) ((readPos b + 1) mod arrLen b)
                 (writePos b) (flags b)).
    assert (Hwf1 : wf b1).
    { unfold wf, b1; simpl.
      pose proof (Z.mod_pos_bound (readPos b + 1) (arrLen b)). lia. }
    destruct (IH b1 Hwf1) as (vs & Hrun & Hl & Hvs).
    rewrite Hrun. simpl. exists (v :: vs).
    split; [|split].
    + do 3 f_equal. rewrite Zplus_mod_idemp_l. f_equal. lia.
    + simpl. now rewrite Hl.
    + intros [|i] Hi; simpl.
      * unfold slot. rewrite Z.add_0_r, Z.mod_small by lia. now rewrite Hv.
      * rewrite Hvs by lia. unfold b1 at 2; simpl.
        change (arrLen b) with (arrLen b1) at 1. unfold b1 at 1.
        now rewrite <- (slot_shift b (readPos b) i).
Qed.

Lemma run_writes_puts {T : Type} (ds : list T) (b : ringBuff T) :
  wf b ->
  exists b' rs,
    Seq.run (map Seq.Write ds) b = Some (b', rs) /\
    puts ds b b' /\ flags b' = flags b.
Proof.
  revert b. induction ds as [|d ds IH]; intros b Hwf.
  - exists b, []. repeat split. constructor.
  - simpl. rewrite write_in_range by assumption. simpl.
    set (b1 := mkRingBuff _ _ _ _ _).
    assert (Hstep : put_step d b b1) by (repeat split).
    assert (Hwf1 : wf b1).
    { apply (puts_content [d] b b1); [|assumption].
      apply (puts_snoc [] d b b b1); [constructor | assumption]. }
    destruct (IH b1 Hwf1) as (b' & rs & Hrun & Hp & Hfl).
    rewrite Hrun. simpl. eexists _, _. split; [reflexivity|].
    split; [now apply (puts_cons d ds b b1 b') | exact Hfl].
Qed.

Lemma slot_period {T : Type} (b : ringBuff T) (pos : Z) (i : nat) :
  slot b pos (Z.to_nat (arrLen b) + i) = slot b pos i.
Proof.
  unfold slot. destruct (Z.le_gt_cases 0 (arrLen b)) as [H|H].
  - f_equal.
    replace (pos + Z.of_nat (Z.to_nat (arrLen b) + i))
      with (pos + Z.of_nat i + 1 * arrLen b) by lia.
    apply Z_mod_plus_full.
  - replace (Z.to_nat (arrLen b)) with 0%nat by lia. reflexivity.
Qed.

(** ** Unprotected reads go round the array *)

(** X1. [n] unprotected reads on a well-formed buffer all succeed. The
    [i]-th gives the element [i] places after the read cursor, wrapping at
    the capacity, so a read repeats what the read a full capacity earlier
    gave. The read cursor advances by [n] modulo the capacity and nothing
    else changes; after exactly [arrLen] reads the buffer is as before. *)
Theorem reads_go_round {T : Type} (n : nat) (b : ringBuff T) :
  wf b ->
  exists b' vs,
    read_values n b = Some (b', vs) /\
    length vs = n /\
    (forall i : nat, (i < n)%nat -> vs !! i = addr b !! slot b (readPos b) i) /\
    (forall i : nat, (Z.to_nat (arrLen b) + i < n)%nat ->
       vs !! (Z.to_nat (arrLen b) + i)%nat = vs !! i) /\
    addr b' = addr b /\ arrLen b' = arrLen b /\
    writePos b' = writePos b /\ flags b' = flags b /\
    readPos b' = (readPos b + Z.of_nat n) mod arrLen b /\
    (Z.of_nat n = arrLen b -> b' = b).
Proof.
  intros Hwf. destruct (read_values_slots n b Hwf) as (vs & Hrun & Hl & Hvs).
  eexists _, vs. split; [exact Hrun|]. split; [exact Hl|].
  split; [exact Hvs|]. split.
  - intros i Hi. rewrite !Hvs by lia. now rewrite slot_period.
  - repeat split. simpl. intros ->.
    destruct Hwf as (Hn & _ & Hr & _).
    replace (readPos b + arrLen b) with (readPos b + 1 * arrLen b) by lia.
    rewrite Z_mod_plus_full, Z.mod_small by lia. now destruct b.
Qed.

Lemma reads_go_round_witness :
  wf (mkRingBuff [10; 20; 30] 3 1 0 0) /\
  exists b' vs,
    read_values 5 (mkRingBuff [10; 20; 30] 3 1 0 0) = Some (b', vs) /\
    vs = [20; 30; 10; 20; 30] /\ readPos b' = 0.
Proof.
  assert (Hwf : wf (mkRingBuff [10; 20; 30] 3 1 0 0))
    by (unfold wf; simpl; lia).
  split; [exact Hwf|].
  destruct (reads_go_round 5 (mkRingBuff [10; 20; 30] 3 1 0 0) Hwf)
    as (b' & vs & Hrun & _ & _ & _ & _ & _ & _ & _ & Hr & _).
  exists b', vs. split; [exact Hrun|].
  split; [|exact Hr].
  vm_compute in Hrun. now injection Hrun as _ <-.
Defined.

(** ** Unprotected writes keep the latest elements *)

(** X2. Any number of unprotected writes on a well-formed buffer all
    succeed. They leave the read cursor and the flags alone, advance the
    write cursor by their number modulo the capacity, and afterwards each of
    the last [arrLen] elements written sits in its slot, counted from where
    the write cursor was: every older element has been overwritten. *)
Theorem writes_keep_latest {T : Type} (ds : list T) (b : ringBuff T) :
  wf b ->
  exists b' rs,
    Seq.run (map Seq.Write ds) b = Some (b', rs) /\
    readPos b' = readPos b /\ flags b' = flags b /\ arrLen b' = arrLen b /\
    writePos b' = (writePos b + Z.of_nat (length ds)) mod arrLen b /\
    forall (i : nat) (d : T),
      ds !! i = Some d -> Z.of_nat (length ds) - Z.of_nat i <= arrLen b ->
      addr b' !! slot b (writePos b) i = Some d.
Proof.
  intros Hwf. destruct (run_writes_puts ds b Hwf) as (b' & rs & Hrun & Hp & Hfl).
  destruct (puts_content ds b b' Hp Hwf) as (_ & Hn & Hr & Hw & Hc).
  exists b', rs. repeat split; assumption.
Qed.

Lemma writes_keep_latest_witness :
  wf (mkRingBuff [0; 0; 0] 3 0 2 0) /\
  exists b' rs,
    Seq.run (map Seq.Write [1; 2; 3; 4; 5]) (mkRingBuff [0; 0; 0] 3 0 2 0)
    = Some (b', rs) /\
    writePos b' = 1 /\ addr b' = [5; 3; 4].
Proof.
  assert (Hwf : wf (mkRingBuff [0; 0; 0] 3 0 2 0)) by (unfold wf; simpl; lia).
  split; [exact Hwf|].
  destruct (writes_keep_latest [1; 2; 3; 4; 5] (mkRingBuff [0; 0; 0] 3 0 2 0)
              Hwf) as (b' & rs & Hrun & _ & _ & _ & Hw & _).
  exists b', rs. split; [exact Hrun|]. split; [exact Hw|].
  vm_compute in Hrun. now injection Hrun as <- _.
Defined.

(** ** Writes followed by reads *)

(** What [n] reads give after the writes of [ds], when the two cursors
    started on the same slot. *)
Lemma reads_after_writes {T : Type} (ds : list T) (n : nat) (b : ringBuff T) :
  wf b -> readPos b = writePos b ->
  exists b1 rs b2 vs,
    Seq.run (map Seq.Write ds) b = Some (b1, rs) /\
    read_values n b1 = Some (b2, vs) /\ length vs = n /\
    readPos b2 = (writePos b + Z.of_nat n) mod arrLen b /\
    writePos b2 = (writePos b + Z.of_nat (length ds)) mod arrLen b /\
    forall (i j : nat) (d : T),
      (j < n)%nat -> slot b (writePos b) j = slot b (writePos b) i ->
      ds !! i = Some d -> Z.of_nat (length ds) - Z.of_nat i <= arrLen b ->
      vs !! j = Some d.
Proof.
  intros Hwf Hrw.
  destruct (run_writes_puts ds b Hwf) as (b1 & rs & Hrun & Hp & _).
  destruct (puts_content ds b b1 Hp Hwf) as (Hwf1 & Hn & Hr & Hw & Hc).
  destruct (read_values_slots n b1 Hwf1) as (vs & Hread & Hl & Hvs).
  eexists b1, rs, _, vs. split; [exact Hrun|]. split; [exact Hread|].
  split; [exact Hl|]. simpl. rewrite Hr, Hn, Hrw.
  split; [reflexivity|]. split; [exact Hw|].
  intros i j d Hj Hslot Hi Hlast. rewrite Hvs by assumption.
  unfold slot at 1. rewrite Hr, Hn, Hrw. fold (slot b (writePos b) j).
  rewrite Hslot. now apply Hc.
Qed.

(** X3. First in, first out. On a well-formed buffer whose cursors are on
    the same slot, at most [arrLen] unprotected writes followed by as many
    unprotected reads give back the written elements in the order written,
    and the two cursors meet again. *)
Theorem write_then_read_fifo {T : Type} (ds : list T) (b : ringBuff T) :
  wf b -> readPos b = writePos b -> Z.of_nat (length ds) <= arrLen b ->
  exists b1 rs b2,
    Seq.run (map Seq.Write ds) b = Some (b1, rs) /\
    read_values (length ds) b1 = Some (b2, ds) /\
    readPos b2 = writePos b2.
Proof.
  intros Hwf Hrw Hfit.
  destruct (reads_after_writes ds (length ds) b Hwf Hrw)
    as (b1 & rs & b2 & vs & Hrun & Hread & Hl & Hr2 & Hw2 & Hvs).
  assert (E : vs = ds).
  { apply (list_eq_same_length _ _ (length ds)); [reflexivity | exact Hl|].
    intros i x y Hi Hx Hy.
    rewrite (Hvs i i y Hi eq_refl Hy) in Hx by lia. congruence. }
  subst vs. exists b1, rs, b2. split; [exact Hrun|].
  split; [exact Hread | congruence].
Qed.

Lemma write_then_read_fifo_witness :
  wf (mkRingBuff [0; 0; 0] 3 2 2 0) /\
  readPos (mkRingBuff [0; 0; 0] 3 2 2 0) = writePos (mkRingBuff [0; 0; 0] 3 2 2 0) /\
  Z.of_nat (length [7; 8; 9]) <= arrLen (mkRingBuff [0; 0; 0] 3 2 2 0) /\
  exists b1 rs b2,
    Seq.run (map Seq.Write [7; 8; 9]) (mkRingBuff [0; 0; 0] 3 2 2 0)
    = Some (b1, rs) /\
    read_values (length [7; 8; 9]) b1 = Some (b2, [7; 8; 9]) /\
    readPos b2 = writePos b2.
Proof.
  assert (Hwf : wf (mkRingBuff [0; 0; 0] 3 2 2 0)) by (unfold wf; simpl; lia).
  assert (Hfit : Z.of_nat (length [7; 8; 9])
                 <= arrLen (mkRingBuff [0; 0; 0] 3 2 2 0)) by (simpl; lia).
  split; [exact Hwf|]. split; [reflexivity|]. split; [exact Hfit|].
  exact (write_then_read_fifo [7; 8; 9] (mkRingBuff [0; 0; 0] 3 2 2 0)
           Hwf eq_refl Hfit).
Defined.

(** X4. Overrun. On a well-formed buffer of capacity [n] whose cursors are
    on the same slot, [n + k] unprotected writes ([k] at most [n]) followed
    by [n] unprotected reads give the elements written in positions [n] to
    [n + k - 1], followed by the elements written in positions [k] to
    [n - 1]. *)
Theorem overrun_reads_newest_first {T : Type} (ds : list T) (k : nat)
    (b : ringBuff T) :
  wf b -> readPos b = writePos b ->
  (k <= Z.to_nat (arrLen b))%nat ->
  length ds = (Z.to_nat (arrLen b) + k)%nat ->
  exists b1 rs b2,
    Seq.run (map Seq.Write ds) b = Some (b1, rs) /\
    read_values (Z.to_nat (arrLen b)) b1
    = Some (b2, drop (Z.to_nat (arrLen b)) ds
                ++ take (Z.to_nat (arrLen b) - k) (drop k ds)).
Proof.
  intros Hwf Hrw Hk Hlen. set (n := Z.to_nat (arrLen b)) in *.
  pose proof Hwf as (Hn & _).
  destruct (reads_after_writes ds n b Hwf Hrw)
    as (b1 & rs & b2 & vs & Hrun & Hread & Hl & _ & _ & Hvs).
  exists b1, rs, b2. split; [exact Hrun|]. rewrite Hread. do 2 f_equal.
  apply (list_eq_same_length _ _ n); [|exact Hl|].
  - rewrite length_app, length_take, !length_drop. lia.
  - intros j x y Hj Hx Hy.
    destruct (Nat.lt_ge_cases j k) as [Hjk|Hjk].
    + rewrite lookup_app_l, lookup_drop in Hy by (rewrite length_drop; lia).
      rewrite (Hvs (n + j)%nat j y Hj) in Hx;
        [congruence | | exact Hy | lia].
      unfold n. now rewrite slot_period.
    + rewrite lookup_app_r, length_drop in Hy by (rewrite length_drop; lia).
      rewrite lookup_take_lt, lookup_drop in Hy by lia.
      replace (k + (j - (length ds - n)))%nat with j in Hy by lia.
      rewrite (Hvs j j y Hj eq_refl Hy) in Hx by lia. congruence.
Qed.

Lemma overrun_reads_newest_first_witness :
  wf (fresh [0; 0; 0; 0]) /\
  exists b1 rs b2,
    Seq.run (map Seq.Write [10; 20; 30; 40; 50; 60]) (fresh [0; 0; 0; 0])
    = Some (b1, rs) /\
    read_values 4 b1 = Some (b2, [50; 60; 30; 40]).
Proof.
  assert (Hwf : wf (fresh [0; 0; 0; 0])) by (unfold wf; simpl; lia).
  split; [exact Hwf|].
  assert (Hk : (2 <= Z.to_nat (arrLen (fresh [0; 0; 0; 0])))%nat)
    by (simpl; lia).
  exact (overrun_reads_newest_first [10; 20; 30; 40; 50; 60] 2
           (fresh [0; 0; 0; 0]) Hwf eq_refl Hk eq_refl).
Defined.

(** ** Protected writes fill the buffer and then stop *)

Lemma run_app {T : Type} (ops1 ops2 : list (Seq.op T)) (b : ringBuff T) :
  Seq.run (ops1 ++ ops2) b
  = '(b1, rs1) ← Seq.run ops1 b;
    '(b2, rs2) ← Seq.run ops2 b1;
    Some (b2, rs1 ++ rs2).
Proof.
  revert b. induction ops1 as [|o ops1 IH]; intros b; simpl.
  - now destruct (Seq.run ops2 b) as [[b2 rs2]|].
  - destruct (Seq.step o b) as [[b1 r]|]; [simpl | reflexivity].
    rewrite IH. destruct (Seq.run ops1 b1) as [[b2 rs1]|]; [simpl | reflexivity].
    now destruct (Seq.run ops2 b2) as [[b3 rs2]|].
Qed.

Lemma written_put {T : Type} (d : T) (b : ringBuff T) :
  put_step d b (written d b).
Proof. repeat split. Qed.

Lemma written_empty_flag {T : Type} (d : T) (b : ringBuff T) :
  empty_flag (written d b) = 0.
Proof.
  unfold empty_flag, written; simpl.
  destruct (_ =? _); [rewrite check_empty_set_full|]; apply check_clear.
Qed.

Lemma written_full_flag {T : Type} (d : T) (b : ringBuff T) :
  full_flag b = 0 ->
  full_flag (written d b) <> 0
  <-> (writePos b + 1) mod arrLen b = readPos b.
Proof.
  intros Hf. unfold full_flag, written in *; simpl.
  destruct (Z.eqb_spec ((writePos b + 1) mod arrLen b) (readPos b)) as [E|E].
  - rewrite check_set. split; [easy | discriminate].
  - rewrite check_full_clear_empty, Hf. split; [easy | contradiction].
Qed.

Lemma run_rejected {T : Type} (es : list T) (b : ringBuff T) :
  wf b -> full_flag b <> 0 ->
  Seq.run (map Seq.P_write es) b
  = Some (b, map (fun _ => Seq.Index (sentinel b)) es).
Proof.
  intros Hwf Hf. induction es as [|e es IH]; [reflexivity|].
  simpl. rewrite (p_write_rejects e b Hwf Hf). simpl. now rewrite IH.
Qed.

(** Protected writes on a buffer whose cursors are on the same slot and
    whose FULL flag is clear: up to [arrLen] of them are accepted, and FULL
    is set by the one that brings the write cursor back. *)
Lemma p_writes_puts {T : Type} (ds : list T) (b : ringBuff T) :
  wf b -> full_flag b = 0 -> readPos b = writePos b ->
  Z.of_nat (length ds) <= arrLen b ->
  exists b' rs,
    Seq.run (map Seq.P_write ds) b = Some (b', rs) /\
    puts ds b b' /\
    (full_flag b' <> 0 <-> Z.of_nat (length ds) = arrLen b) /\
    (ds <> [] -> empty_flag b' = 0).
Proof.
  intros Hwf Hf Hrw. pose proof Hwf as (Hn & _ & _ & Hw).
  induction ds as [|e ds IH] using rev_ind; intros Hfit.
  - exists b, []. split; [reflexivity|]. split; [constructor|].
    split; [|easy]. rewrite Hf. simpl. split; [easy | lia].
  - rewrite length_app in Hfit. simpl in Hfit.
    destruct IH as (b1 & rs & Hrun & Hp & Hfull & _); [lia|].
    destruct (puts_content ds b b1 Hp Hwf) as (Hwf1 & Hn1 & Hr1 & Hw1 & _).
    assert (Hf1 : full_flag b1 = 0).
    { destruct (Z.eq_dec (full_flag b1) 0) as [|Hne]; [assumption|].
      apply Hfull in Hne. lia. }
    exists (written e b1), (rs ++ [Seq.Index (writePos (written e b1))]).
    split; [|split; [|split]].
    + rewrite map_app, run_app, Hrun. simpl.
      now rewrite (p_write_accepts e b1 Hwf1 Hf1).
    + eapply puts_snoc; [exact Hp | apply written_put].
    + rewrite (written_full_flag e b1 Hf1), Hw1, Hn1, Hr1, Hrw.
      rewrite Zplus_mod_idemp_l, length_app. simpl.
      replace (writePos b + Z.of_nat (length ds) + 1)
        with (writePos b + (Z.of_nat (length ds) + 1)) by lia.
      rewrite mod_add_back by lia. lia.
    + intros _. apply written_empty_flag.
Qed.

(** X5. On a well-formed buffer with FULL clear and both cursors on the
    same slot, up to [arrLen] protected writes are all accepted. FULL is set
    afterwards exactly when [arrLen] elements were written, EMPTY is clear
    as soon as one was, and unprotected reads give the elements back in the
    order written. *)
Theorem p_writes_fill {T : Type} (ds : list T) (b : ringBuff T) :
  wf b -> full_flag b = 0 -> readPos b = writePos b ->
  Z.of_nat (length ds) <= arrLen b ->
  exists b' rs b'',
    Seq.run (map Seq.P_write ds) b = Some (b', rs) /\
    (full_flag b' <> 0 <-> Z.of_nat (length ds) = arrLen b) /\
    (ds <> [] -> empty_flag b' = 0) /\
    read_values (length ds) b' = Some (b'', ds).
Proof.
  intros Hwf Hf Hrw Hfit.
  destruct (p_writes_puts ds b Hwf Hf Hrw Hfit)
    as (b' & rs & Hrun & Hp & Hfull & Hempty).
  destruct (puts_content ds b b' Hp Hwf) as (Hwf' & Hn & Hr & _ & Hc).
  destruct (read_values_slots (length ds) b' Hwf') as (vs & Hread & Hl & Hvs).
  exists b', rs. eexists. split; [exact Hrun|]. split; [exact Hfull|].
  split; [exact Hempty|]. rewrite Hread. do 2 f_equal.
  apply (list_eq_same_length _ _ (length ds)); [reflexivity | exact Hl|].
  intros i x y Hi Hx Hy. rewrite Hvs in Hx by assumption.
  unfold slot in Hx. rewrite Hr, Hn, Hrw in Hx.
  fold (slot b (writePos b) i) in Hx.
  rewrite (Hc i y Hy) in Hx by lia. congruence.
Qed.

Lemma p_writes_fill_witness :
  wf (mkRingBuff [0; 0; 0] 3 1 1 0) /\
  exists b' rs b'',
    Seq.run (map Seq.P_write [7; 8; 9]) (mkRingBuff [0; 0; 0] 3 1 1 0)
    = Some (b', rs) /\
    (full_flag b' <> 0
     <-> Z.of_nat (length [7; 8; 9]) = arrLen (mkRingBuff [0; 0; 0] 3 1 1 0)) /\
    ([7; 8; 9] <> [] -> empty_flag b' = 0) /\
    read_values (length [7; 8; 9]) b' = Some (b'', [7; 8; 9]).
Proof.
  assert (Hwf : wf (mkRingBuff [0; 0; 0] 3 1 1 0)) by (unfold wf; simpl; lia).
  assert (Hfit : Z.of_nat (length [7; 8; 9])
                 <= arrLen (mkRingBuff [0; 0; 0] 3 1 1 0)) by (simpl; lia).
  split; [exact Hwf|].
  exact (p_writes_fill [7; 8; 9] (mkRingBuff [0; 0; 0] 3 1 1 0)
           Hwf eq_refl eq_refl Hfit).
Defined.

(** X6. Protected writes do not overrun. On a well-formed buffer with FULL
    clear and both cursors on the same slot, after [arrLen] protected
    writes every further protected write is rejected with the same index
    and changes nothing: the buffer after them is the buffer after the first
    [arrLen], and unprotected reads still give those elements in order. *)
Theorem p_writes_stop_when_full {T : Type} (ds es : list T) (b : ringBuff T) :
  wf b -> full_flag b = 0 -> readPos b = writePos b ->
  Z.of_nat (length ds) = arrLen b ->
  exists b' rs b'',
    Seq.run (map Seq.P_write ds) b = Some (b', rs) /\
    Seq.run (map Seq.P_write (ds ++ es)) b
    = Some (b', rs ++ map (fun _ => Seq.Index (sentinel b')) es) /\
    read_values (length ds) b' = Some (b'', ds).
Proof.
  intros Hwf Hf Hrw Hlen.
  destruct (p_writes_puts ds b Hwf Hf Hrw) as (b' & rs & Hrun & Hp & Hfull & _);
    [lia|].
  destruct (puts_content ds b b' Hp Hwf) as (Hwf' & Hn & Hr & _ & Hc).
  destruct (read_values_slots (length ds) b' Hwf') as (vs & Hread & Hl & Hvs).
  exists b', rs. eexists. split; [exact Hrun|]. split.
  - rewrite map_app, run_app, Hrun. simpl.
    rewrite run_rejected; [reflexivity | exact Hwf' | now apply Hfull].
  - rewrite Hread. do 2 f_equal.
    apply (list_eq_same_length _ _ (length ds)); [reflexivity | exact Hl|].
    intros i x y Hi Hx Hy. rewrite Hvs in Hx by assumption.
    unfold slot in Hx. rewrite Hr, Hn, Hrw in Hx.
    fold (slot b (writePos b) i) in Hx.
    rewrite (Hc i y Hy) in Hx by lia. congruence.
Qed.

Lemma p_writes_stop_when_full_witness :
  wf (fresh [0; 0]) /\
  exists b' rs b'',
    Seq.run (map Seq.P_write [1; 2]) (fresh [0; 0]) = Some (b', rs) /\
    Seq.run (map Seq.P_write ([1; 2] ++ [3; 4])) (fresh [0; 0])
    = Some (b', rs ++ map (fun _ => Seq.Index (sentinel b')) [3; 4]) /\
    read_values (length [1; 2]) b' = Some (b'', [1; 2]).
Proof.
  assert (Hwf : wf (fresh [0; 0])) by (unfold wf; simpl; lia).
  split; [exact Hwf|].
  exact (p_writes_stop_when_full [1; 2] [3; 4] (fresh [0; 0])
           Hwf eq_refl eq_refl eq_refl).
Defined.

(** X7. The index a rejected protected write returns, on a well-formed
    buffer with FULL set: it is never the write cursor, and it is the index
    an accepted write would have returned (the write cursor plus one, modulo
    the capacity) in one case only, capacity 2 with the write cursor on
    slot 1. *)
Theorem rejected_index_told_apart {T : Type} (d : T) (b : ringBuff T) :
  wf b -> full_flag b <> 0 ->
  exists i,
    RefForm.p_write d b = Some (b, i) /\
    i <> writePos b /\
    (i = (writePos b + 1) mod arrLen b <-> arrLen b = 2 /\ writePos b = 1).
Proof.
  intros Hwf Hf. exists (sentinel b).
  split; [now apply p_write_rejects|].
  destruct Hwf as (Hn & _ & _ & Hw). unfold sentinel.
  destruct (Z.eqb_spec (writePos b) 0) as [E|E].
  - split; [lia|]. rewrite E.
    pose proof (Z.mod_pos_bound (0 + 1) (arrLen b)). lia.
  - split; [lia|].
    destruct (Z.eq_dec (writePos b + 1) (arrLen b)) as [Hlast|Hlast].
    + rewrite Hlast, Z_mod_same_full. lia.
    + rewrite Z.mod_small by lia. lia.
Qed.

Lemma rejected_index_told_apart_witness :
  wf (mkRingBuff [1; 2] 2 1 1 FLAG_FULL) /\
  full_flag (mkRingBuff [1; 2] 2 1 1 FLAG_FULL) <> 0 /\
  RefForm.p_write 3 (mkRingBuff [1; 2] 2 1 1 FLAG_FULL)
  = Some (mkRingBuff [1; 2] 2 1 1 FLAG_FULL, 0) /\
  RefForm.p_write 3 (mkRingBuff [1; 2] 2 1 1 0)
  = Some (mkRingBuff [1; 3] 2 1 0 0, 0).
Proof.
  assert (Hwf : wf (mkRingBuff [1; 2] 2 1 1 FLAG_FULL))
    by (unfold wf; simpl; lia).
  assert (Hf : full_flag (mkRingBuff [1; 2] 2 1 1 FLAG_FULL) <> 0)
    by (vm_compute; discriminate).
  split; [exact Hwf|]. split; [exact Hf|].
  destruct (rejected_index_told_apart 3 _ Hwf Hf) as (i & Hp & _ & Hi).
  split; [|reflexivity].
  rewrite Hp. do 2 f_equal. apply Hi. split; reflexivity.
Defined.

(** ** What an operation leaves alone *)

Lemma step_unprotected {T : Type} (o : Seq.op T) (b b' : ringBuff T)
    (r : Seq.result) :
  Seq.protected o = false -> Seq.step o b = Some (b', r) ->
  flags b' = flags b.
Proof.
  intros Ho H. destruct o as [d| |d|i0 p0]; try discriminate Ho; simpl in H;
    [unfold RefForm.write in H | unfold RefForm.read in H];
    step_cases H; now injection H as <- _.
Qed.

Lemma step_is_read {T : Type} (o : Seq.op T) (b b' : ringBuff T)
    (r : Seq.result) :
  is_read o = true -> Seq.step o b = Some (b', r) ->
  addr b' = addr b /\ writePos b' = writePos b.
Proof.
  intros Ho H. destruct o as [d| |d|i0 p0]; try discriminate Ho; simpl in H;
    [unfold RefForm.read in H | unfold RefForm.p_read in H];
    step_cases H; now injection H as <- _.
Qed.

Lemma step_is_write {T : Type} (o : Seq.op T) (b b' : ringBuff T)
    (r : Seq.result) :
  is_read o = false -> Seq.step o b = Some (b', r) ->
  readPos b' = readPos b /\ length (addr b') = length (addr b).
Proof.
  intros Ho H. destruct o as [d| |d|i0 p0]; try discriminate Ho; simpl in H;
    [unfold RefForm.write in H | unfold RefForm.p_write in H];
    step_cases H; injection H as <- _; simpl; split; try reflexivity;
    match goal with
    | E : store _ _ _ = Some _ |- _ =>
        unfold store in E; destruct (_ && _) in E; [|discriminate E];
        injection E as <-; apply length_insert
    end.
Qed.

(** Carries a property every step keeps along a whole run. *)
Lemma run_preserves {T : Type} (ok : Seq.op T -> bool)
    (R : ringBuff T -> ringBuff T -> Prop) :
  (forall b, R b b) ->
  (forall b1 b2 b3, R b1 b2 -> R b2 b3 -> R b1 b3) ->
  (forall o b b' r, ok o = true -> Seq.step o b = Some (b', r) -> R b b') ->
  forall ops b b' rs,
    Forall (fun o => ok o = true) ops ->
    Seq.run ops b = Some (b', rs) -> R b b'.
Proof.
  intros Hrefl Htrans Hstep ops.
  induction ops as [|o ops IH]; intros b b' rs Hok H; simpl in H.
  - injection H as <- _. apply Hrefl.
  - apply Forall_cons in Hok as [Ho Hok].
    destruct (Seq.step o b) as [[b1 r]|] eqn:Hs; [|discriminate H].
    simpl in H.
    destruct (Seq.run ops b1) as [[b2 rs']|] eqn:Hr; [|discriminate H].
    simpl in H. injection H as <- _.
    eapply Htrans; [eapply Hstep; eassumption | eapply IH; eassumption].
Qed.

(** X8. The unprotected operations keep no account of occupancy: whatever
    sequence of [write] and [read] runs, however often it overwrites or
    rereads, the flags byte, and with it the FULL and EMPTY bits the
    protected operations test, is afterwards what it was before; on a well-formed buffer every such
    sequence runs to its end. *)
Theorem unprotected_keep_flags {T : Type} (ops : list (Seq.op T))
    (b : ringBuff T) :
  Forall (fun o => negb (Seq.protected o) = true) ops ->
  (forall b' rs, Seq.run ops b = Some (b', rs) ->
     flags b' = flags b /\
     full_flag b' = full_flag b /\
     empty_flag b' = empty_flag b) /\
  (wf b -> exists b' rs, Seq.run ops b = Some (b', rs) /\ flags b' = flags b).
Proof.
  intros Hops.
  assert (H : forall b' rs, Seq.run ops b = Some (b', rs) -> flags b' = flags b).
  { intros b' rs.
    apply (run_preserves (fun o => negb (Seq.protected o))
             (fun b1 b2 => flags b2 = flags b1)); [easy | congruence | | exact Hops].
    intros o b1 b2 r Ho. apply step_unprotected.
    now apply negb_true_iff in Ho. }
  split.
  - intros b' rs Hrun. unfold full_flag, empty_flag.
    rewrite (H b' rs Hrun). repeat split.
  - intros Hwf. destruct (run_wf ops b Hwf) as (b' & rs & Hrun & _).
    exists b', rs. split; [exact Hrun | exact (H b' rs Hrun)].
Qed.

Lemma unprotected_keep_flags_witness :
  Forall (fun o : Seq.op Z => negb (Seq.protected o) = true)
    [Seq.Write 1; Seq.Write 2; Seq.Write 3; Seq.Read] /\
  wf (fresh [0; 0]) /\
  exists b' rs,
    Seq.run [Seq.Write 1; Seq.Write 2; Seq.Write 3; Seq.Read] (fresh [0; 0])
    = Some (b', rs) /\ flags b' = flags (fresh [0; 0]).
Proof.
  assert (Hops : Forall (fun o : Seq.op Z => negb (Seq.protected o) = true)
                   [Seq.Write 1; Seq.Write 2; Seq.Write 3; Seq.Read])
    by (repeat constructor).
  assert (Hwf : wf (fresh [0; 0])) by (unfold wf; simpl; lia).
  split; [exact Hops|]. split; [exact Hwf|].
  exact (proj2 (unprotected_keep_flags _ (fresh [0; 0]) Hops) Hwf).
Defined.

(** X9. An unprotected read frees no slot for a protected write. On a
    well-formed buffer with FULL set, after any number of unprotected reads
    FULL is still set and [p_write] is still rejected, storing nothing. *)
Theorem reads_do_not_reopen {T : Type} (n : nat) (d : T) (b : ringBuff T) :
  wf b -> full_flag b <> 0 ->
  exists b' vs,
    read_values n b = Some (b', vs) /\
    full_flag b' <> 0 /\
    RefForm.p_write d b' = Some (b', sentinel b').
Proof.
  intros Hwf Hf. destruct (read_values_slots n b Hwf) as (vs & Hrun & _).
  eexists _, vs. split; [exact Hrun|].
  set (b' := mkRingBuff _ _ _ _ _).
  assert (Hwf' : wf b').
  { destruct Hwf as (Hn & Hlen & Hr & Hw). unfold wf, b'; simpl.
    pose proof (Z.mod_pos_bound (readPos b + Z.of_nat n) (arrLen b)). lia. }
  assert (Hf' : full_flag b' <> 0) by exact Hf.
  split; [exact Hf' | now apply p_write_rejects].
Qed.

Lemma reads_do_not_reopen_witness :
  wf full2 /\ full_flag full2 <> 0 /\
  exists b' vs,
    read_values 2 full2 = Some (b', vs) /\
    full_flag b' <> 0 /\
    RefForm.p_write 3 b' = Some (b', sentinel b').
Proof.
  assert (Hwf : wf full2) by (unfold wf; simpl; lia).
  assert (Hf : full_flag full2 <> 0) by (vm_compute; discriminate).
  split; [exact Hwf|]. split; [exact Hf|].
  exact (reads_do_not_reopen 2 3 full2 Hwf Hf).
Defined.

(** X10. Reads and writes keep to their side. No sequence of [read] and
    [p_read], whatever the locals of [p_read] hold, changes the array or
    the write cursor; no sequence of [write] and [p_write] changes the read
    cursor or the length of the array. *)
Theorem reads_and_writes_keep_apart {T : Type} (ops : list (Seq.op T))
    (b b' : ringBuff T) (rs : list Seq.result) :
  Seq.run ops b = Some (b', rs) ->
  (Forall (fun o => is_read o = true) ops ->
   addr b' = addr b /\ writePos b' = writePos b) /\
  (Forall (fun o => negb (is_read o) = true) ops ->
   readPos b' = readPos b /\ length (addr b') = length (addr b)).
Proof.
  intros Hrun. split; intros Hops.
  - apply (run_preserves is_read
             (fun b1 b2 => addr b2 = addr b1 /\ writePos b2 = writePos b1))
      with (ops := ops) (rs := rs); try assumption.
    + easy.
    + intros b1 b2 b3 [? ?] [? ?]. split; congruence.
    + intros o b1 b2 r. apply step_is_read.
  - apply (run_preserves (fun o => negb (is_read o))
             (fun b1 b2 => readPos b2 = readPos b1 /\
                           length (addr b2) = length (addr b1)))
      with (ops := ops) (rs := rs); try assumption.
    + easy.
    + intros b1 b2 b3 [? ?] [? ?]. split; congruence.
    + intros o b1 b2 r Ho. apply step_is_write.
      now apply negb_true_iff in Ho.
Qed.

Lemma reads_and_writes_keep_apart_witness :
  Seq.run [Seq.Read; Seq.P_read 9 0; Seq.Read] (fresh [4; 5; 6])
  = Some (mkRingBuff [4; 5; 6] 3 2 0 0, [Seq.Item 0; Seq.Item 9; Seq.Item 1]) /\
  addr (mkRingBuff [4; 5; 6] 3 2 0 0) = addr (fresh [4; 5; 6]) /\
  writePos (mkRingBuff [4; 5; 6] 3 2 0 0) = writePos (fresh [4; 5; 6]).
Proof.
  assert (Hrun : Seq.run [Seq.Read; Seq.P_read 9 0; Seq.Read] (fresh [4; 5; 6])
                 = Some (mkRingBuff [4; 5; 6] 3 2 0 0,
                         [Seq.Item 0; Seq.Item 9; Seq.Item 1]))
    by reflexivity.
  split; [exact Hrun|].
  apply (proj1 (reads_and_writes_keep_apart _ _ _ _ Hrun)).
  repeat constructor.
Defined.

(** ** The two forms on write, read and p_write *)

Lemma forms_step {T : Type} (o : Forms.op T) (b : ringBuff T) :
  Forms.val_step o b = Forms.ref_step o b.
Proof.
  destruct o as [d| |d]; try reflexivity.
  simpl. rewrite forms_read.
  destruct (RefForm.read b) as [[b' p]|]; [simpl | reflexivity].
  now destruct (load (addr b') p).
Qed.

(** X12. For every sequence of [write], [read] and [p_write], on every
    buffer, the value form and the reference form behave alike: both have a
    defined result or neither has, the buffers they leave are equal, the
    indices returned are equal, and each element the value form returns is
    the element the pointer of the reference form points at. *)
Theorem forms_agree {T : Type} (ops : list (Forms.op T)) (b : ringBuff T) :
  Forms.run Forms.val_step ops b = Forms.run Forms.ref_step ops b.
Proof.
  revert b. induction ops as [|o ops IH]; intros b; [reflexivity|].
  simpl. rewrite forms_step.
  destruct (Forms.ref_step o b) as [[b1 r]|]; [simpl | reflexivity].
  now rewrite IH.
Qed.

(** ** Protected reads with the write cursor on slot 0 *)

Lemma check_empty_clear_full (x : Z) :
  CHECK_BITMASK (CLEAR_BITMASK x FLAG_FULL) FLAG_EMPTY = CHECK_BITMASK x FLAG_EMPTY.
Proof.
  unfold CHECK_BITMASK, CLEAR_BITMASK. now rewrite <- Z.land_assoc.
Qed.

(** X13. [p_read] compares the incremented index with the write cursor
    before reducing it modulo the capacity. So on a well-formed buffer with
    EMPTY clear and the write cursor on slot 0 (as after filling a new
    buffer completely), no sequence of [p_read] calls whose local [index]
    holds a byte other than 255 ever sets EMPTY: none of them is rejected,
    however many there are. *)
Theorem p_reads_never_empty_at_zero {T : Type} (ops : list (Seq.op T))
    (b : ringBuff T) :
  wf b -> writePos b = 0 -> empty_flag b = 0 ->
  Forall (fun o => low_read o = true) ops ->
  exists b' rs,
    Seq.run ops b = Some (b', rs) /\
    empty_flag b' = 0 /\ writePos b' = 0 /\ addr b' = addr b.
Proof.
  revert b. induction ops as [|o ops IH]; intros b Hwf Hw He Hops.
  - exists b, []. repeat split; assumption.
  - apply Forall_cons in Hops as [Ho Hops].
    destruct o as [d| |d|i0 p0]; try discriminate Ho.
    simpl in Ho. apply andb_true_iff in Ho as [H0 H1].
    apply Z.leb_le in H0. apply Z.ltb_lt in H1.
    pose proof Hwf as (Hn & Hlen & Hr & _).
    simpl. rewrite p_read_from_local by (assumption || lia). simpl.
    rewrite Hw, to_u8_small by lia.
    destruct (Z.eqb_spec (i0 + 1) 0) as [|_]; [lia|].
    set (b1 := mkRingBuff _ _ _ _ _).
    destruct (IH b1) as (b' & rs & Hrun & He' & Hw' & Ha'); [| | |assumption|].
    + unfold wf, b1; simpl.
      pose proof (Z.mod_pos_bound (i0 + 1) (arrLen b)). lia.
    + reflexivity.
    + unfold empty_flag, b1; simpl.
      rewrite check_empty_clear_full. exact He.
    + rewrite Hrun. simpl. eexists _, _. split; [reflexivity|].
      repeat split; assumption.
Qed.

Lemma p_reads_never_empty_at_zero_witness :
  wf (mkRingBuff [1; 2] 2 0 0 FLAG_FULL) /\
  exists b' rs,
    Seq.run [Seq.P_read 0 0; Seq.P_read 1 0; Seq.P_read 0 0]
      (mkRingBuff [1; 2] 2 0 0 FLAG_FULL) = Some (b', rs) /\
    empty_flag b' = 0 /\ writePos b' = 0 /\ addr b' = [1; 2].
Proof.
  assert (Hwf : wf (mkRingBuff [1; 2] 2 0 0 FLAG_FULL))
    by (unfold wf; simpl; lia).
  split; [exact Hwf|].
  apply (p_reads_never_empty_at_zero _ (mkRingBuff [1; 2] 2 0 0 FLAG_FULL) Hwf
           eq_refl eq_refl).
  repeat constructor.
Defined.
